(** * MessageFeedsController: message feed ingestion, routing and configuration

    A shallow embedding of [Shared/messages/MessageFeedsController.cpp].
    The controller is a stateful [QObject]; its member functions are written
    in a small state-and-trace monad over the controller's members.  Calls
    into collaborators (the message decoder, the location broadcast, the
    feed list model, the overlays, the socket layer, signal emission) are
    recorded, in program order, in the trace. *)

From stdpp Require Import base option list strings gmap pretty.
From Stdlib Require Import ZArith Ascii Lia.

Local Open Scope Z_scope.

(** ** Qt value types used by the controller *)

Module Qt.

(** [QString] is modelled as a sequence of 8-bit code units. *)
Abbreviation QString := string (only parsing).
Abbreviation QByteArray := string (only parsing).

Definition code (c : ascii) : Z := Z.of_nat (nat_of_ascii c).

(** [QString::split(sep)] for a one-character separator, with the default
    [KeepEmptyParts] behaviour: the empty string splits into one empty
    part, and [n] separators always give [n + 1] parts. *)
Fixpoint split (sep : ascii) (s : string) : list string :=
  match s with
  | EmptyString => [EmptyString]
  | String c rest =>
      if Ascii.eqb c sep then EmptyString :: split sep rest
      else match split sep rest with
           | part :: parts => String c part :: parts
           | [] => [String c EmptyString]
           end
  end.

(** Number of occurrences of a character. *)
Fixpoint occurrences (sep : ascii) (s : string) : nat :=
  match s with
  | EmptyString => O
  | String c rest =>
      if Ascii.eqb c sep then S (occurrences sep rest) else occurrences sep rest
  end.

(** [QChar::isSpace] on the 8-bit range: TAB..CR, SPACE, NEL and NBSP. *)
Definition isSpace (c : ascii) : bool :=
  let n := code c in
  ((9 <=? n) && (n <=? 13)) || (n =? 32) || (n =? 133) || (n =? 160).

Fixpoint skipSpaces (s : string) : string :=
  match s with
  | EmptyString => EmptyString
  | String c rest => if isSpace c then skipSpaces rest else s
  end.

(** [QString::trimmed]: white space removed from both ends. *)
Definition trimmed (s : string) : string :=
  String.rev (skipSpaces (String.rev (skipSpaces s))).

Definition digit (c : ascii) : option Z :=
  let n := code c in
  if (48 <=? n) && (n <=? 57) then Some (n - 48) else None.

Fixpoint digits (acc : Z) (s : string) : option Z :=
  match s with
  | EmptyString => Some acc
  | String c rest =>
      match digit c with
      | Some d => digits (10 * acc + d) rest
      | None => None
      end
  end.

(** The decimal number a string denotes in the C locale: surrounding white
    space is ignored, one sign is allowed, and at least one digit is
    required.  [None] is a failed conversion. *)
Definition toIntegral (s : string) : option Z :=
  match trimmed s with
  | EmptyString => None
  | String c rest =>
      if Ascii.eqb c "-"%char then
        match rest with
        | EmptyString => None
        | _ => Z.opp <$> digits 0 rest
        end
      else if Ascii.eqb c "+"%char then
        match rest with
        | EmptyString => None
        | _ => digits 0 rest
        end
      else digits 0 (String c rest)
  end.

Definition INT_MIN : Z := - 2 ^ 31.
Definition INT_MAX : Z := 2 ^ 31 - 1.

(** [QString::toInt()] in base 10: the value, or [0] when the conversion
    fails or the value does not fit a 32-bit [int]. *)
Definition toInt (s : string) : Z :=
  match toIntegral s with
  | Some v => if (INT_MIN <=? v) && (v <=? INT_MAX) then v else 0
  | None => 0
  end.

(** Implicit conversion of an [int] argument to a [quint16] parameter. *)
Definition to_quint16 (v : Z) : Z := v mod 2 ^ 16.

(** Case folding of one code unit (letters A..Z). *)
Definition foldCase (c : ascii) : ascii :=
  let n := code c in
  if (65 <=? n) && (n <=? 90) then ascii_of_nat (nat_of_ascii c + 32) else c.

(** [QString::toCaseFolded]. *)
Fixpoint toCaseFolded (s : string) : string :=
  match s with
  | EmptyString => EmptyString
  | String c rest => String (foldCase c) (toCaseFolded rest)
  end.

(** [QString::compare(other, Qt::CaseInsensitive)]: negative, zero or
    positive as the folded strings compare lexicographically. *)
Fixpoint compare_CaseInsensitive (s t : string) : Z :=
  match s, t with
  | EmptyString, EmptyString => 0
  | EmptyString, String _ _ => -1
  | String _ _, EmptyString => 1
  | String a s', String b t' =>
      let d := code (foldCase a) - code (foldCase b) in
      if d =? 0 then compare_CaseInsensitive s' t' else d
  end.

(** [QString("...%1").arg(a)] for a pattern that ends in its only place
    marker: the marker is replaced by the argument. *)
Definition arg_suffix (prefix a : string) : string := prefix +:+ a.

(** The kinds of [QVariant] a configuration carries: nothing, a string, a
    string list, or a list of variants. *)
#[warnings="-register-all"]
Inductive QVariant : Type :=
| Invalid
| VString (s : string)
| VStringList (l : list string)
| VList (l : list QVariant).

(** [QVariant::toString]: a string list converts only when it holds
    exactly one item; a variant list does not convert. *)
Definition toString (v : QVariant) : string :=
  match v with
  | VString s => s
  | VStringList [s] => s
  | _ => EmptyString
  end.

(** [QVariant::toStringList]: a string converts to a one-item list, a
    variant list item by item. *)
Definition toStringList (v : QVariant) : list string :=
  match v with
  | Invalid => []
  | VString s => [s]
  | VStringList l => l
  | VList l => toString <$> l
  end.

(** [QVariantMap::operator[] const]: a default-constructed variant for a
    missing key. *)
Definition value (properties : gmap string QVariant) (key : string) : QVariant :=
  default Invalid (properties !! key).

(** [QList::removeOne]: removes the first occurrence, if any. *)
Fixpoint removeOne `{EqDecision A} (x : A) (l : list A) : list A :=
  match l with
  | [] => []
  | y :: l' => if decide (y = x) then l' else y :: removeOne x l'
  end.

End Qt.

(** ** Collaborator objects

    Heap objects are identified by their address ([nat]); a nullable pointer
    is an [option].  Objects that this file never mutates after construction
    are carried as records together with their address, so that two
    references denote the identical instance exactly when the records, and
    hence the addresses, are equal. *)

Definition addr := nat.

Module Message.
(** Modelled from the spec: the [Message] class ([Message.h]) is missing from
    the sources; a message exposes a type, a unique identifier (a [QUuid],
    here its 128-bit value), its content and an emptiness predicate. *)
Record t : Type := Build
  { messageType : string; messageId : N; payload : string; isEmpty : bool }.
#[global] Instance eq_dec : EqDecision t.
Proof. solve_decision. Defined.
End Message.

Module LocationBroadcast.
(** Modelled from the spec: the [LocationBroadcast] class is missing from the
    sources; the broadcast holds its enabled flag, its period in
    milliseconds, the message type and the port it sends on, and the last
    message it sent. *)
Record t : Type := Build
  { enabled : bool; frequency : Z; messageType : string; udpPort : Z;
    message : Message.t }.
(** Modelled from the spec: [LocationBroadcast::setEnabled] is missing from
    the sources; it switches between Disabled and Enabled. *)
Definition setEnabled (b : bool) (lb : t) : t :=
  Build b (frequency lb) (messageType lb) (udpPort lb) (message lb).
(** Modelled from the spec: [LocationBroadcast::setFrequency] is missing from
    the sources; it sets the period. *)
Definition setFrequency (f : Z) (lb : t) : t :=
  Build (enabled lb) f (messageType lb) (udpPort lb) (message lb).
(** Modelled from the spec: [LocationBroadcast::setMessageType] is missing
    from the sources; it sets the type of the messages sent. *)
Definition setMessageType (ty : string) (lb : t) : t :=
  Build (enabled lb) (frequency lb) ty (udpPort lb) (message lb).
(** Modelled from the spec: [LocationBroadcast::setUdpPort] is missing from
    the sources; it sets the port the messages are sent on. *)
Definition setUdpPort (p : Z) (lb : t) : t :=
  Build (enabled lb) (frequency lb) (messageType lb) p (message lb).
End LocationBroadcast.

(** The symbol classes of the rendering engine, as far as [createRenderer]
    constructs them. *)
Record DictionarySymbolStyle : Type :=
  { style_addr : addr; specificationType : string; styleLocation : string }.

(** Width and height are in device-independent pixels. *)
Record PictureMarkerSymbol : Type :=
  { symbol_addr : addr; image : string; width : Z; height : Z }.

Inductive Renderer : Type :=
| DictionaryRenderer (a : addr) (style : DictionarySymbolStyle)
| SimpleRenderer (a : addr) (symbol : PictureMarkerSymbol).

Definition renderer_addr (r : Renderer) : addr :=
  match r with DictionaryRenderer a _ | SimpleRenderer a _ => a end.

Definition renderer_style (r : Renderer) : option DictionarySymbolStyle :=
  match r with DictionaryRenderer _ st => Some st | SimpleRenderer _ _ => None end.

Module MessagesOverlay.
(** Modelled from the spec: the [MessagesOverlay] class is missing from the
    sources; an overlay is an opaque sink, constructed from a view and a
    renderer, that accepts routed messages. *)
Record t : Type := Build
  { address : addr; geoView : option addr; renderer : Renderer }.
End MessagesOverlay.

Module MessageFeed.
(** Modelled from the spec: the [MessageFeed] class is missing from the
    sources; a feed pairs a name and a message type with its overlay. *)
Record t : Type := Build
  { address : addr; feedName : string; feedMessageType : string;
    messagesOverlay : MessagesOverlay.t }.
End MessageFeed.

Module MessageFeedListModel.
(** Modelled from the spec: the [MessageFeedListModel] class is missing from
    the sources; the registry is an insertion-ordered sequence of feeds. *)
Definition t : Type := list MessageFeed.t.
(** Modelled from the spec: [MessageFeedListModel::append] is missing from
    the sources; registering a feed appends it to the ordered collection. *)
Definition append (feed : MessageFeed.t) (feeds : t) : t := feeds ++ [feed].
(** Modelled from the spec: [MessageFeedListModel::messageFeedByType] is
    missing from the sources; the lookup is a linear scan that returns a
    feed of the given type, the most recently registered one when several
    have it, or nothing. *)
Fixpoint messageFeedByType (ty : string) (feeds : t) : option MessageFeed.t :=
  match feeds with
  | [] => None
  | feed :: newer =>
      match messageFeedByType ty newer with
      | Some later => Some later
      | None =>
          if decide (MessageFeed.feedMessageType feed = ty) then Some feed else None
      end
  end.
End MessageFeedListModel.

(** ** Signals and the trace *)

Inductive Signal : Type :=
| propertyChanged (name value : string)
| locationBroadcastEnabledChanged
| locationBroadcastFrequencyChanged.

(** What the controller does outside its own members, in program order:
    reads of the broadcast and of the registry, the decoder call, messages
    handed to an overlay, socket binds with their outcome, style files
    loaded, and signals emitted. *)
Inductive Event : Type :=
| Message_create (raw : string)
| LocationBroadcast_isEnabled
| LocationBroadcast_message
| LocationBroadcast_frequency
| MessageFeedListModel_messageFeedByType (ty : string)
| MessagesOverlay_addMessage (overlay : addr) (m : Message.t)
| QUdpSocket_bind (socket : addr) (port : Z) (bound : bool)
| New_MessageListener (listener socket : addr)
| New_DictionarySymbolStyle (style : DictionarySymbolStyle)
| Emit (sig : Signal).

(** ** The controller's state

    The members of [MessageFeedsController], the function-local statics of
    [createRenderer], the connections of [MessageListener::messageReceived]
    to the controller's slot (one entry per [connect] call, holding the
    sender), and the next free heap address. *)
Record World : Type := Build_World
  { m_geoView : option addr;
    m_messageFeeds : MessageFeedListModel.t;
    m_messageListeners : list addr;
    m_locationBroadcast : LocationBroadcast.t;
    m_resourcePath : string;
    connections : list addr;
    dictionarySymbolStyleMil2525c : option DictionarySymbolStyle;
    dictionarySymbolStyleMil2525d : option DictionarySymbolStyle;
    next_addr : addr }.

Definition with_geoView (g : option addr) (w : World) : World :=
  Build_World g (m_messageFeeds w) (m_messageListeners w)
    (m_locationBroadcast w) (m_resourcePath w) (connections w)
    (dictionarySymbolStyleMil2525c w) (dictionarySymbolStyleMil2525d w) (next_addr w).
Definition with_messageFeeds (f : MessageFeedListModel.t → MessageFeedListModel.t) (w : World) : World :=
  Build_World (m_geoView w) (f (m_messageFeeds w)) (m_messageListeners w)
    (m_locationBroadcast w) (m_resourcePath w) (connections w)
    (dictionarySymbolStyleMil2525c w) (dictionarySymbolStyleMil2525d w) (next_addr w).
Definition with_messageListeners (f : list addr → list addr) (w : World) : World :=
  Build_World (m_geoView w) (m_messageFeeds w) (f (m_messageListeners w))
    (m_locationBroadcast w) (m_resourcePath w) (connections w)
    (dictionarySymbolStyleMil2525c w) (dictionarySymbolStyleMil2525d w) (next_addr w).
Definition with_locationBroadcast (f : LocationBroadcast.t → LocationBroadcast.t) (w : World) : World :=
  Build_World (m_geoView w) (m_messageFeeds w) (m_messageListeners w)
    (f (m_locationBroadcast w)) (m_resourcePath w) (connections w)
    (dictionarySymbolStyleMil2525c w) (dictionarySymbolStyleMil2525d w) (next_addr w).
Definition with_resourcePath (p : string) (w : World) : World :=
  Build_World (m_geoView w) (m_messageFeeds w) (m_messageListeners w)
    (m_locationBroadcast w) p (connections w)
    (dictionarySymbolStyleMil2525c w) (dictionarySymbolStyleMil2525d w) (next_addr w).
Definition with_connections (f : list addr → list addr) (w : World) : World :=
  Build_World (m_geoView w) (m_messageFeeds w) (m_messageListeners w)
    (m_locationBroadcast w) (m_resourcePath w) (f (connections w))
    (dictionarySymbolStyleMil2525c w) (dictionarySymbolStyleMil2525d w) (next_addr w).
Definition with_styleMil2525c (st : option DictionarySymbolStyle) (w : World) : World :=
  Build_World (m_geoView w) (m_messageFeeds w) (m_messageListeners w)
    (m_locationBroadcast w) (m_resourcePath w) (connections w)
    st (dictionarySymbolStyleMil2525d w) (next_addr w).
Definition with_styleMil2525d (st : option DictionarySymbolStyle) (w : World) : World :=
  Build_World (m_geoView w) (m_messageFeeds w) (m_messageListeners w)
    (m_locationBroadcast w) (m_resourcePath w) (connections w)
    (dictionarySymbolStyleMil2525c w) st (next_addr w).
Definition with_next_addr (n : addr) (w : World) : World :=
  Build_World (m_geoView w) (m_messageFeeds w) (m_messageListeners w)
    (m_locationBroadcast w) (m_resourcePath w) (connections w)
    (dictionarySymbolStyleMil2525c w) (dictionarySymbolStyleMil2525d w) n.

(** ** The monad: a result, the next state, and the events performed *)

Definition M (A : Type) : Type := World → A * World * list Event.

#[global] Instance M_ret : MRet M := λ A a w, (a, w, []).
#[global] Instance M_bind : MBind M := λ A B f c w,
  let '(a, w1, t1) := c w in
  let '(b, w2, t2) := f a w1 in
  (b, w2, t1 ++ t2).

Definition result {A} (c : M A) (w : World) : A := (c w).1.1.
Definition exec {A} (c : M A) (w : World) : World := (c w).1.2.
Definition trace {A} (c : M A) (w : World) : list Event := (c w).2.

Definition get : M World := λ w, (w, w, []).
Definition modify (f : World → World) : M unit := λ w, ((), f w, []).
Definition perform (e : Event) : M unit := λ w, ((), w, [e]).

(** [new T(...)]: a fresh address. *)
Definition new : M addr := λ w, (next_addr w, with_next_addr (S (next_addr w)) w, []).

(** A range-based [for] loop. *)
Fixpoint for_each {A} (l : list A) (body : A → M unit) : M unit :=
  match l with
  | [] => mret ()
  | x :: rest => body x ;; for_each rest body
  end.

(** ** MessageFeedsController *)

Definition RESOURCE_DIRECTORY_PROPERTYNAME : string := "ResourceDirectory".
Definition MESSAGE_FEED_UDP_PORTS_PROPERTYNAME : string := "MessageFeedUdpPorts".
Definition MESSAGE_FEEDS_PROPERTYNAME : string := "MessageFeeds".
Definition LOCATION_BROADCAST_CONFIG_PROPERTYNAME : string := "LocationBroadcastConfig".

(** What can reach a controller during its life: the calls of its public
    interface, a resolution of a renderer, a datagram emitted by a listener,
    and a message sent by the broadcast on its timer. *)
Inductive Call : Type :=
| Call_setGeoView (geoView : option addr)
| Call_addMessageListener (messageListener : option addr)
| Call_removeMessageListener (messageListener : option addr)
| Call_setProperties (properties : gmap string Qt.QVariant)
| Call_setResourcePath (resourcePath : string)
| Call_setLocationBroadcastEnabled (enabled : bool)
| Call_setLocationBroadcastFrequency (frequency : Z)
| Call_createRenderer (rendererInfo : string)
| Call_messageReceived (sender : addr) (message : string)
| Call_broadcastSent (message : Message.t).

Section Controller.

(** [Message::create]: the decoder of the wire format, which is outside the
    controller. *)
Variable create : string → Message.t.

(** The outcome of [QUdpSocket::bind] for a socket and a port, decided by the
    operating system. *)
Variable os_bind : addr → Z → bool.

Definition Message_create_ (raw : string) : M Message.t :=
  perform (Message_create raw) ;; mret (create raw).

Definition locationBroadcast_isEnabled : M bool :=
  perform LocationBroadcast_isEnabled ;;
  w ← get; mret (LocationBroadcast.enabled (m_locationBroadcast w)).

Definition locationBroadcast_message : M Message.t :=
  perform LocationBroadcast_message ;;
  w ← get; mret (LocationBroadcast.message (m_locationBroadcast w)).

Definition locationBroadcast_frequency : M Z :=
  perform LocationBroadcast_frequency ;;
  w ← get; mret (LocationBroadcast.frequency (m_locationBroadcast w)).

Definition messageFeeds_messageFeedByType (ty : string) : M (option MessageFeed.t) :=
  perform (MessageFeedListModel_messageFeedByType ty) ;;
  w ← get; mret (MessageFeedListModel.messageFeedByType ty (m_messageFeeds w)).

Definition messagesOverlay_addMessage (overlay : MessagesOverlay.t) (m : Message.t) : M unit :=
  perform (MessagesOverlay_addMessage (MessagesOverlay.address overlay) m).

Definition setGeoView (geoView : option addr) : M unit :=
  modify (with_geoView geoView).

(** The slot connected to [MessageListener::messageReceived] (lines 101-118). *)
Definition onMessageReceived (message : string) : M unit :=
  m ← Message_create_ message;
  if Message.isEmpty m then mret ()
  else
    enabled ← locationBroadcast_isEnabled;
    own ← (if enabled : bool then
             sent ← locationBroadcast_message;
             mret (bool_decide (Message.messageId sent = Message.messageId m))
           else mret false);
    if own : bool then mret ()
    else
      messageFeed ← messageFeeds_messageFeedByType (Message.messageType m);
      match messageFeed with
      | None => mret ()
      | Some feed => messagesOverlay_addMessage (MessageFeed.messagesOverlay feed) m
      end.

(** [QObject::connect(sender, &MessageListener::messageReceived, this, slot)]:
    every call adds a connection. *)
Definition connect_messageReceived (sender : addr) : M unit :=
  modify (with_connections (λ cs, cs ++ [sender])).

(** [QObject::disconnect(sender, &MessageListener::messageReceived, this, nullptr)]:
    removes every connection from that sender. *)
Definition disconnect_messageReceived (sender : addr) : M unit :=
  modify (with_connections (filter (λ s, s ≠ sender))).

(** Modelled from the spec: the [MessageListener] class is missing from the
    sources; on receipt of a datagram a listener emits
    [messageReceived(message)] once, and the slot runs once for each
    connection of that sender, in connection order. *)
Definition emit_messageReceived (sender : addr) (message : string) : M unit :=
  w ← get;
  for_each (filter (λ s, s = sender) (connections w)) (λ _, onMessageReceived message).

Definition addMessageListener (messageListener : option addr) : M unit :=
  match messageListener with
  | None => mret ()
  | Some listener =>
      modify (with_messageListeners (λ ls, ls ++ [listener])) ;;
      connect_messageReceived listener
  end.

Definition removeMessageListener (messageListener : option addr) : M unit :=
  match messageListener with
  | None => mret ()
  | Some listener =>
      modify (with_messageListeners (Qt.removeOne listener)) ;;
      disconnect_messageReceived listener
  end.

Definition setResourcePath (resourcePath : string) : M unit :=
  w ← get;
  if decide (resourcePath = m_resourcePath w) then mret ()
  else
    modify (with_resourcePath resourcePath) ;;
    perform (Emit (propertyChanged RESOURCE_DIRECTORY_PROPERTYNAME resourcePath)).

Definition setLocationBroadcastEnabled (enabled : bool) : M unit :=
  current ← locationBroadcast_isEnabled;
  if decide (current = enabled) then mret ()
  else
    modify (with_locationBroadcast (LocationBroadcast.setEnabled enabled)) ;;
    perform (Emit locationBroadcastEnabledChanged).

Definition setLocationBroadcastFrequency (frequency : Z) : M unit :=
  current ← locationBroadcast_frequency;
  if decide (current = frequency) then mret ()
  else
    modify (with_locationBroadcast (LocationBroadcast.setFrequency frequency)) ;;
    perform (Emit locationBroadcastFrequencyChanged).

Definition new_DictionarySymbolStyle (specType location : string) : M DictionarySymbolStyle :=
  a ← new;
  let style := {| style_addr := a; specificationType := specType; styleLocation := location |} in
  perform (New_DictionarySymbolStyle style) ;; mret style.

Definition new_PictureMarkerSymbol (img : string) : M PictureMarkerSymbol :=
  a ← new;
  mret {| symbol_addr := a; image := img; width := 0; height := 0 |}.

Definition setWidth (v : Z) (s : PictureMarkerSymbol) : PictureMarkerSymbol :=
  {| symbol_addr := symbol_addr s; image := image s; width := v; height := height s |}.
Definition setHeight (v : Z) (s : PictureMarkerSymbol) : PictureMarkerSymbol :=
  {| symbol_addr := symbol_addr s; image := image s; width := width s; height := v |}.

Definition createRenderer (rendererInfo : string) : M Renderer :=
  if Qt.compare_CaseInsensitive rendererInfo "mil2525c" =? 0 then
    w ← get;
    style ← match dictionarySymbolStyleMil2525c w with
            | Some style => mret style
            | None =>
                style ← new_DictionarySymbolStyle "mil2525c_b2"
                          (m_resourcePath w +:+ "/styles/mil2525c_b2.stylx");
                modify (with_styleMil2525c (Some style)) ;; mret style
            end;
    a ← new; mret (DictionaryRenderer a style)
  else if Qt.compare_CaseInsensitive rendererInfo "mil2525d" =? 0 then
    w ← get;
    style ← match dictionarySymbolStyleMil2525d w with
            | Some style => mret style
            | None =>
                style ← new_DictionarySymbolStyle "mil2525d"
                          (m_resourcePath w +:+ "/styles/mil2525d.stylx");
                modify (with_styleMil2525d (Some style)) ;; mret style
            end;
    a ← new; mret (DictionaryRenderer a style)
  else
    symbol ← new_PictureMarkerSymbol
               (Qt.arg_suffix ":/Resources/icons/xhdpi/message/" rendererInfo);
    let symbol := setHeight 40 (setWidth 40 symbol) in
    a ← new; mret (SimpleRenderer a symbol).

(** [new QUdpSocket(this)] followed by [bind]; the outcome of the bind is
    recorded and otherwise ignored (lines 165-166). *)
Definition new_boundSocket (port : Z) : M addr :=
  udpSocket ← new;
  perform (QUdpSocket_bind udpSocket port (os_bind udpSocket port)) ;;
  mret udpSocket.

(** [new MessageListener(udpSocket, this)]. *)
Definition new_MessageListener (udpSocket : addr) : M (option addr) :=
  listener ← new;
  perform (New_MessageListener listener udpSocket) ;; mret (Some listener).

Definition new_MessagesOverlay (renderer : Renderer) : M MessagesOverlay.t :=
  w ← get; a ← new; mret (MessagesOverlay.Build a (m_geoView w) renderer).

Definition new_MessageFeed (name ty : string) (overlay : MessagesOverlay.t) : M MessageFeed.t :=
  a ← new; mret (MessageFeed.Build a name ty overlay).

(** Body of the loop over the configured UDP ports (lines 163-169). *)
Definition setProperties_udpPort (udpPort : string) : M unit :=
  udpSocket ← new_boundSocket (Qt.to_quint16 (Qt.toInt udpPort));
  listener ← new_MessageListener udpSocket;
  addMessageListener listener.

(** Body of the loop over the configured message feeds (lines 173-186). *)
Definition setProperties_messageFeed (messageFeed : string) : M unit :=
  let messageFeedConfig := Qt.split ":"%char messageFeed in
  if decide (length messageFeedConfig ≠ 3%nat) then mret ()
  else
    let feedName := messageFeedConfig !!! 0%nat in
    let feedType := messageFeedConfig !!! 1%nat in
    let rendererInfo := messageFeedConfig !!! 2%nat in
    renderer ← createRenderer rendererInfo;
    overlay ← new_MessagesOverlay renderer;
    feed ← new_MessageFeed feedName feedType overlay;
    modify (with_messageFeeds (MessageFeedListModel.append feed)).

Definition setProperties (properties : gmap string Qt.QVariant) : M unit :=
  setResourcePath (Qt.toString (Qt.value properties RESOURCE_DIRECTORY_PROPERTYNAME)) ;;
  let messageFeedUdpPorts :=
    Qt.toStringList (Qt.value properties MESSAGE_FEED_UDP_PORTS_PROPERTYNAME) in
  for_each messageFeedUdpPorts setProperties_udpPort ;;
  let messageFeeds :=
    Qt.toStringList (Qt.value properties MESSAGE_FEEDS_PROPERTYNAME) in
  for_each messageFeeds setProperties_messageFeed ;;
  let locationBroadcastConfig :=
    Qt.toStringList (Qt.value properties LOCATION_BROADCAST_CONFIG_PROPERTYNAME) in
  if decide (length locationBroadcastConfig = 2%nat) then
    modify (with_locationBroadcast
              (LocationBroadcast.setMessageType (locationBroadcastConfig !!! 0%nat))) ;;
    modify (with_locationBroadcast
              (LocationBroadcast.setUdpPort (Qt.toInt (locationBroadcastConfig !!! 1%nat))))
  else mret ().

(** Modelled from the spec: the timer of [LocationBroadcast] is missing from
    the sources; on a tick the broadcast sends a message and records it as
    the last one sent, overwriting the one before. *)
Definition locationBroadcast_sent (message : Message.t) : M unit :=
  modify (with_locationBroadcast (λ lb,
    LocationBroadcast.Build (LocationBroadcast.enabled lb) (LocationBroadcast.frequency lb)
      (LocationBroadcast.messageType lb) (LocationBroadcast.udpPort lb) message)).

Definition call (c : Call) : M unit :=
  match c with
  | Call_setGeoView geoView => setGeoView geoView
  | Call_addMessageListener messageListener => addMessageListener messageListener
  | Call_removeMessageListener messageListener => removeMessageListener messageListener
  | Call_setProperties properties => setProperties properties
  | Call_setResourcePath resourcePath => setResourcePath resourcePath
  | Call_setLocationBroadcastEnabled enabled => setLocationBroadcastEnabled enabled
  | Call_setLocationBroadcastFrequency frequency => setLocationBroadcastFrequency frequency
  | Call_createRenderer rendererInfo => createRenderer rendererInfo ;; mret ()
  | Call_messageReceived sender message => emit_messageReceived sender message
  | Call_broadcastSent message => locationBroadcast_sent message
  end.

End Controller.

(** ** Observations on traces *)

Definition is_Message_create (e : Event) : bool :=
  match e with Message_create _ => true | _ => false end.

(** How many times the ingestion path was entered. *)
Definition ingestions (tr : list Event) : nat :=
  length (List.filter is_Message_create tr).

(** The messages handed to overlays, with the overlay's address. *)
Definition delivered (tr : list Event) : list (addr * Message.t) :=
  omap (λ e, match e with MessagesOverlay_addMessage o m => Some (o, m) | _ => None end) tr.

(** The signals emitted. *)
Definition emitted (tr : list Event) : list Signal :=
  omap (λ e, match e with Emit s => Some s | _ => None end) tr.

(** The style files loaded. *)
Definition loaded (tr : list Event) : list DictionarySymbolStyle :=
  omap (λ e, match e with New_DictionarySymbolStyle st => Some st | _ => None end) tr.

(** The sockets bound: address, port and outcome. *)
Definition binds (tr : list Event) : list (addr * Z * bool) :=
  omap (λ e, match e with QUdpSocket_bind s p ok => Some (s, p, ok) | _ => None end) tr.

(** The self-suppression test of the slot: the broadcast is enabled and the
    last message it sent carries the identifier of [m]. *)
Definition is_own_broadcast (w : World) (m : Message.t) : bool :=
  LocationBroadcast.enabled (m_locationBroadcast w)
  && bool_decide (Message.messageId (LocationBroadcast.message (m_locationBroadcast w))
                  = Message.messageId m).

(** The three parts of a well-formed feed entry. *)
Definition feed_entry (entry : string) : option (string * string * string) :=
  match Qt.split ":"%char entry with
  | [name; ty; rendererInfo] => Some (name, ty, rendererInfo)
  | _ => None
  end.

Inductive Standard : Type := Mil2525c | Mil2525d.

(** The named standard a renderer specification denotes, if any. *)
Definition standard_of (rendererInfo : string) : option Standard :=
  if Qt.compare_CaseInsensitive rendererInfo "mil2525c" =? 0 then Some Mil2525c
  else if Qt.compare_CaseInsensitive rendererInfo "mil2525d" =? 0 then Some Mil2525d
  else None.

Definition cached (std : Standard) (w : World) : option DictionarySymbolStyle :=
  match std with
  | Mil2525c => dictionarySymbolStyleMil2525c w
  | Mil2525d => dictionarySymbolStyleMil2525d w
  end.

Definition style_name (std : Standard) : string :=
  match std with Mil2525c => "mil2525c_b2" | Mil2525d => "mil2525d" end.

(** Writing the static of a standard. *)
Definition with_cached (std : Standard) (st : option DictionarySymbolStyle) : World → World :=
  match std with
  | Mil2525c => with_styleMil2525c st
  | Mil2525d => with_styleMil2525d st
  end.

(** The style object a first resolution of a standard constructs. *)
Definition style_for (std : Standard) (w : World) : DictionarySymbolStyle :=
  {| style_addr := next_addr w;
     specificationType := style_name std;
     styleLocation := m_resourcePath w +:+ "/styles/" +:+ style_name std +:+ ".stylx" |}.

(** A feed is the one a well-formed entry asks for, in a controller state
    [final]: it has the entry's name and type, and its overlay renders with
    the style cached for the named standard, or else with a simple renderer
    over a 40 by 40 picture marker of the named image. *)
Definition feed_from (final : World) (entry : string * string * string)
    (feed : MessageFeed.t) : Prop :=
  let renderer := MessagesOverlay.renderer (MessageFeed.messagesOverlay feed) in
  MessageFeed.feedName feed = entry.1.1
  ∧ MessageFeed.feedMessageType feed = entry.1.2
  ∧ match standard_of entry.2 with
    | Some std =>
        is_Some (renderer_style renderer)
        ∧ renderer_style renderer = cached std final
    | None =>
        ∃ a symbol, renderer = SimpleRenderer a symbol
          ∧ image symbol = ":/Resources/icons/xhdpi/message/" +:+ entry.2
          ∧ width symbol = 40 ∧ height symbol = 40
    end.

(** ** Sample data for concrete runs *)

Module Sample.

Definition empty_message : Message.t := Message.Build "" 0 "" true.

(** A toy wire format, [type:id]. *)
Definition decode (raw : string) : Message.t :=
  match Qt.split ":"%char raw with
  | [ty; id] =>
      match Qt.toIntegral id with
      | Some n => Message.Build ty (Z.to_N n) raw false
      | None => empty_message
      end
  | _ => empty_message
  end.

Definition bind_ok : addr → Z → bool := λ _ port, bool_decide (port ≠ 0).

(** A freshly constructed controller. *)
Definition fresh : World :=
  Build_World None [] [] (LocationBroadcast.Build false 3000 "" 0 empty_message)
    "" [] None None 1%nat.

Definition config : gmap string Qt.QVariant :=
  <[ MESSAGE_FEED_UDP_PORTS_PROPERTYNAME := Qt.VStringList ["4000"; "abc"] ]>
  (<[ MESSAGE_FEEDS_PROPERTYNAME :=
        Qt.VStringList ["Friendly:friendly:icon_a.png"; "broken"; "Cot:position:mil2525c"] ]>
  (<[ LOCATION_BROADCAST_CONFIG_PROPERTYNAME := Qt.VStringList ["position"; "4001"] ]>
  (<[ RESOURCE_DIRECTORY_PROPERTYNAME := Qt.VString "/data" ]> ∅))).

(** The controller after the configuration was applied. *)
Definition configured : World := exec (setProperties bind_ok config) fresh.

(** The same, with the broadcast enabled and message 7 sent last. *)
Definition broadcasting : World :=
  with_locationBroadcast
    (λ lb, LocationBroadcast.Build true (LocationBroadcast.frequency lb)
             (LocationBroadcast.messageType lb) (LocationBroadcast.udpPort lb)
             (Message.Build "position" 7 "position:7" false))
    configured.

(** A new listener on a new socket, added to the controller twice. *)
Definition add_twice : M (option addr) :=
  udpSocket ← new_boundSocket bind_ok 4002;
  listener ← new_MessageListener udpSocket;
  addMessageListener listener ;;
  addMessageListener listener ;;
  mret listener.

End Sample.

(** ** The controller's getters *)

Definition messageFeeds : M MessageFeedListModel.t :=
  w ← get; mret (m_messageFeeds w).

Definition messageListeners : M (list addr) :=
  w ← get; mret (m_messageListeners w).

Definition toolName : M string := mret "messages".

Definition isLocationBroadcastEnabled : M bool := locationBroadcast_isEnabled.

Definition locationBroadcastFrequency : M Z := locationBroadcast_frequency.

(** ** Further observations *)

(** Every sender with a connection to the slot is in the listener list. *)
Definition connected_listed (w : World) : Prop :=
  ∀ listener, listener ∈ connections w → listener ∈ m_messageListeners w.

(** How many connections a sender has to the slot. *)
Definition connections_of (sender : addr) (w : World) : nat :=
  length (filter (λ s, s = sender) (connections w)).

#[global] Instance Standard_eq_dec : EqDecision Standard.
Proof. solve_decision. Defined.

(** The styles of a standard among those loaded. *)
Definition loaded_for (std : Standard) (tr : list Event) : list DictionarySymbolStyle :=
  filter (λ st, specificationType st = style_name std) (loaded tr).

(** Where the style file of a standard lies under a resource directory. *)
Definition style_file (dir : string) (std : Standard) : string :=
  dir +:+ "/styles/" +:+ style_name std +:+ ".stylx".

(** A step loads the style of a standard at most once, and only while none
    is cached; a cached style stays. *)
Definition loads_once (std : Standard) (c : M unit) : Prop :=
  ∀ w,
    (∀ st, cached std w = Some st →
       cached std (exec c w) = Some st ∧ loaded_for std (trace c w) = [])
    ∧ (cached std w = None →
       (loaded_for std (trace c w) = [] ∧ cached std (exec c w) = None)
       ∨ ∃ st, loaded_for std (trace c w) = [st] ∧ cached std (exec c w) = Some st).


(** ** FeatureOverlayManager

    A shallow embedding of [Shared/FeatureOverlayManager.cpp]: the scan for
    the object-id field in the constructor and the cached element lookup. *)

Module FeatureOverlayManager.

(** The field types of the feature table, as far as the constructor tells
    them apart. *)
Inductive FieldType : Type := OID | GlobalID | Text | Int32 | Float64 | Date | Geometry.

#[global] Instance FieldType_eq_dec : EqDecision FieldType.
Proof. solve_decision. Defined.

Record Field : Type := { name : string; fieldType : FieldType }.

Record FeatureTable : Type := { fields : list Field; numberOfFeatures : Z }.

(** The layer the manager wraps: its name and its table, which may be
    missing. *)
Record FeatureLayer : Type :=
  { layer_name : string; featureTable : option FeatureTable }.

(** The members of the manager, and the number of [errorOccurred] handlers
    that earlier lookups connected and left connected; each of them refers
    to the event loop of its own, finished, call. *)
Record State : Type := Build_State
  { m_overlay : FeatureLayer;
    m_oidFieldName : string;
    m_elementCache : gmap Z (option addr);
    stale_error_handlers : nat }.

(** The loop of the constructor (lines 33-38): every field of type [OID]
    overwrites the name. *)
Definition scan_fields (fields : list Field) (oidFieldName : string) : string :=
  foldl (λ current f, if decide (fieldType f = OID) then name f else current)
    oidFieldName fields.

Definition construct (overlay : FeatureLayer) : State :=
  {| m_overlay := overlay;
     m_oidFieldName :=
       match featureTable overlay with
       | None => ""
       | Some tab => scan_fields (fields tab) ""
       end;
     m_elementCache := ∅;
     stale_error_handlers := 0 |}.

(** How the nested event loop of a lookup ends: the table reports an error,
    or the query completes with a result (which may be null) whose iterator
    yields the features found. *)
Inductive QueryOutcome : Type :=
| errorOccurred
| queryFeaturesCompleted (featureQueryResult : option (list addr)).

(** A call either returns, or runs a handler whose captured event loop is
    out of scope. *)
Inductive Behaviour (A : Type) : Type :=
| Returns (a : A)
| UseAfterScope.
Arguments Returns {A} a.
Arguments UseAfterScope {A}.

(** [QHash::value(key, nullptr)]: null for a missing key and for a null
    entry. *)
Definition cache_value (cache : gmap Z (option addr)) (elementId : Z) : option addr :=
  mjoin (cache !! elementId).

(** ["%1" = %2] with the field name and the decimal element id. *)
Definition whereClause (oidFieldName : string) (elementId : Z) : string :=
  String (ascii_of_nat 34) ""
  +:+ oidFieldName +:+ String (ascii_of_nat 34) "" +:+ " = " +:+ pretty elementId.

(** [featureQueryResult->iterator().next()]: the first feature, or null. *)
Definition first_feature (features : list addr) : option addr := head features.

(** [elementAt] (lines 75-112).  The result is the behaviour, the next
    state, and the where clauses of the queries issued. *)
Definition elementAt (outcome : QueryOutcome) (elementId : Z) (s : State)
    : Behaviour (option addr) * State * list string :=
  match cache_value (m_elementCache s) elementId with
  | Some feature => (Returns (Some feature), s, [])
  | None =>
      match featureTable (m_overlay s) with
      | None => (Returns None, s, [])
      | Some tab =>
          let query := whereClause (m_oidFieldName s) elementId in
          let connected (cache : gmap Z (option addr)) :=
            Build_State (m_overlay s) (m_oidFieldName s) cache
              (S (stale_error_handlers s)) in
          match outcome with
          | errorOccurred =>
              match stale_error_handlers s with
              | O => (Returns None,
                      connected (<[elementId := None]> (m_elementCache s)), [query])
              | S _ => (UseAfterScope, connected (m_elementCache s), [query])
              end
          | queryFeaturesCompleted featureQueryResult =>
              let feature :=
                match featureQueryResult with
                | Some features => first_feature features
                | None => None
                end in
              (Returns feature,
               connected (<[elementId := feature]> (m_elementCache s)), [query])
          end
      end
  end.

(** A series of lookups, each with the outcome its query would have; it
    stops at the first call that does not return. *)
Fixpoint lookups (calls : list (Z * QueryOutcome)) (s : State) : option State :=
  match calls with
  | [] => Some s
  | (elementId, outcome) :: rest =>
      match elementAt outcome elementId s with
      | (Returns _, s', _) => lookups rest s'
      | (UseAfterScope, _, _) => None
      end
  end.

End FeatureOverlayManager.


(** * Properties *)

Section Properties.

Variable create : string → Message.t.
Variable os_bind : addr → Z → bool.

(** ** Strings *)

Lemma split_nonempty sep s : Qt.split sep s ≠ [].
Proof.
  destruct s as [|c rest]; simpl; [done|].
  destruct (Ascii.eqb c sep); [done|]. by destruct (Qt.split sep rest).
Qed.

(** A string splits into one part more than it has separators. *)
Lemma length_split sep s : length (Qt.split sep s) = S (Qt.occurrences sep s).
Proof.
  induction s as [|c rest IH]; simpl; [done|].
  destruct (Ascii.eqb c sep); simpl; [by rewrite IH|].
  pose proof (split_nonempty sep rest).
  by destruct (Qt.split sep rest).
Qed.

Lemma code_inj a b : Qt.code a = Qt.code b → a = b.
Proof.
  unfold Qt.code. intros Hab. apply Nat2Z.inj in Hab.
  rewrite <- (ascii_nat_embedding a), <- (ascii_nat_embedding b). by rewrite Hab.
Qed.

(** The case-insensitive comparison is zero exactly for strings that are
    equal after case folding. *)
Lemma compare_CaseInsensitive_zero s t :
  Qt.compare_CaseInsensitive s t = 0 ↔ Qt.toCaseFolded s = Qt.toCaseFolded t.
Proof.
  revert t. induction s as [|a s IH]; intros [|b t]; simpl; try done.
  destruct (Qt.code (Qt.foldCase a) - Qt.code (Qt.foldCase b) =? 0) eqn:Hd.
  - apply Z.eqb_eq in Hd. assert (Qt.foldCase a = Qt.foldCase b) as ->
      by (apply code_inj; lia).
    rewrite IH. split; [by intros ->|by intros [= ->]].
  - apply Z.eqb_neq in Hd. split; [done|]. intros [= Hab _]. by rewrite Hab, Z.sub_diag in Hd.
Qed.

Example split_feed_entry :
  Qt.split ":" "Friendly:friendly:icon_a.png" = ["Friendly"; "friendly"; "icon_a.png"].
Proof. reflexivity. Qed.

Example split_no_separator : Qt.split ":" "" = [""].
Proof. reflexivity. Qed.

Example split_empty_parts : Qt.split ":" "::" = [""; ""; ""].
Proof. reflexivity. Qed.

Example toInt_port : Qt.toInt " 4000 " = 4000.
Proof. reflexivity. Qed.

Example toInt_not_a_number : Qt.toInt "abc" = 0.
Proof. reflexivity. Qed.

Example toInt_out_of_range : Qt.toInt "99999999999" = 0.
Proof. reflexivity. Qed.

Example standard_any_case : standard_of "MIL2525C" = Some Mil2525c.
Proof. reflexivity. Qed.

Example standard_documented_name : standard_of "mil2525c_b2" = None.
Proof. reflexivity. Qed.

(** ** Running the monad *)

Lemma run_bind {A B} (c : M A) (f : A → M B) w :
  (c ≫= f) w = ((f (result c w) (exec c w)).1.1,
                (f (result c w) (exec c w)).1.2,
                trace c w ++ (f (result c w) (exec c w)).2).
Proof.
  unfold mbind, M_bind, result, exec, trace.
  destruct (c w) as [[a w1] t1]; simpl.
  by destruct (f a w1) as [[b w2] t2].
Qed.

Lemma exec_bind {A B} (c : M A) (f : A → M B) w :
  exec (c ≫= f) w = exec (f (result c w)) (exec c w).
Proof. unfold exec at 1. by rewrite run_bind. Qed.

Lemma trace_bind {A B} (c : M A) (f : A → M B) w :
  trace (c ≫= f) w = trace c w ++ trace (f (result c w)) (exec c w).
Proof. unfold trace at 1. by rewrite run_bind. Qed.

Lemma run_eta {A} (c : M A) w : c w = (result c w, exec c w, trace c w).
Proof. unfold result, exec, trace. by destruct (c w) as [[??]?]. Qed.

Lemma exec_for_each_cons {A} (x : A) l body w :
  exec (for_each (x :: l) body) w = exec (for_each l body) (exec (body x) w).
Proof. simpl. by rewrite exec_bind. Qed.

Lemma trace_for_each_cons {A} (x : A) l body w :
  trace (for_each (x :: l) body) w
  = trace (body x) w ++ trace (for_each l body) (exec (body x) w).
Proof. simpl. by rewrite trace_bind. Qed.

(** A loop whose body leaves the state alone leaves the state alone. *)
Lemma exec_for_each_frame {A} (l : list A) body w :
  (∀ x w', exec (body x) w' = w') → exec (for_each l body) w = w.
Proof.
  intros Hbody. induction l as [|x l IH]; [done|].
  by rewrite exec_for_each_cons, Hbody.
Qed.

Lemma ingestions_app t1 t2 : ingestions (t1 ++ t2) = (ingestions t1 + ingestions t2)%nat.
Proof. unfold ingestions. by rewrite List.filter_app, length_app. Qed.

Lemma delivered_app t1 t2 : delivered (t1 ++ t2) = delivered t1 ++ delivered t2.
Proof. apply omap_app. Qed.

(** ** The ingestion slot *)

(** The slot never changes the controller, and its trace is determined by
    the decoded message, the broadcast and the registry. *)
Lemma onMessageReceived_run raw w :
  onMessageReceived create raw w =
  ((), w,
   let m := create raw in
   let lb := m_locationBroadcast w in
   Message_create raw ::
   if Message.isEmpty m then []
   else
     LocationBroadcast_isEnabled ::
     (if LocationBroadcast.enabled lb then [LocationBroadcast_message] else []) ++
     if is_own_broadcast w m then []
     else
       MessageFeedListModel_messageFeedByType (Message.messageType m) ::
       match MessageFeedListModel.messageFeedByType (Message.messageType m) (m_messageFeeds w) with
       | Some feed =>
           [MessagesOverlay_addMessage
              (MessagesOverlay.address (MessageFeed.messagesOverlay feed)) m]
       | None => []
       end).
Proof.
  unfold onMessageReceived, is_own_broadcast, Message_create_,
    locationBroadcast_isEnabled, locationBroadcast_message,
    messageFeeds_messageFeedByType, messagesOverlay_addMessage,
    mbind, M_bind, mret, M_ret, perform, get; simpl.
  destruct (Message.isEmpty (create raw)); [done|].
  destruct (LocationBroadcast.enabled (m_locationBroadcast w)); simpl.
  - case_bool_decide; simpl; [done|].
    by destruct (MessageFeedListModel.messageFeedByType _ _).
  - by destruct (MessageFeedListModel.messageFeedByType _ _).
Qed.

Lemma exec_onMessageReceived raw w : exec (onMessageReceived create raw) w = w.
Proof. unfold exec. by rewrite onMessageReceived_run. Qed.

Lemma ingestions_onMessageReceived raw w :
  ingestions (trace (onMessageReceived create raw) w) = 1%nat.
Proof.
  unfold trace. rewrite onMessageReceived_run. simpl.
  unfold ingestions. simpl. f_equal.
  destruct (Message.isEmpty _); [done|]. simpl.
  destruct (LocationBroadcast.enabled _); simpl;
    destruct (is_own_broadcast _ _); simpl; try done;
    by destruct (MessageFeedListModel.messageFeedByType _ _).
Qed.

Lemma is_own_broadcast_spec w m :
  is_own_broadcast w m = true ↔
  LocationBroadcast.enabled (m_locationBroadcast w) = true
  ∧ Message.messageId (LocationBroadcast.message (m_locationBroadcast w)) = Message.messageId m.
Proof.
  unfold is_own_broadcast. rewrite andb_true_iff, bool_decide_eq_true. done.
Qed.

Lemma messageFeedByType_None ty feeds :
  MessageFeedListModel.messageFeedByType ty feeds = None ↔
  ∀ feed, feed ∈ feeds → MessageFeed.feedMessageType feed ≠ ty.
Proof.
  induction feeds as [|feed newer IH]; simpl.
  - split; [|done]. intros _ feed Hin. by apply elem_of_nil in Hin.
  - destruct (MessageFeedListModel.messageFeedByType ty newer) as [later|] eqn:Hlater.
    + split; [done|]. intros Hall. exfalso.
      assert (Some later = None) as Habs; [|done].
      apply IH. intros f Hf. apply Hall. by right.
    + case_decide as Hty.
      * split; [done|]. intros Hall. exfalso. apply (Hall feed); [by left|done].
      * split; [|done]. intros _ f Hf. apply elem_of_cons in Hf as [->|Hf]; [done|].
        by apply IH.
Qed.

Lemma messageFeedByType_Some ty feeds feed :
  MessageFeedListModel.messageFeedByType ty feeds = Some feed →
  feed ∈ feeds ∧ MessageFeed.feedMessageType feed = ty.
Proof.
  induction feeds as [|first newer IH]; simpl; [done|].
  destruct (MessageFeedListModel.messageFeedByType ty newer) as [later|].
  - intros [= ->]. destruct IH as [Hin Hty]; [done|]. split; [by right|done].
  - case_decide; [|done]. intros [= ->]. split; [by left|done].
Qed.

(** ** Emitting [messageReceived] *)

Lemma exec_slots {A} (l : list A) raw w :
  exec (for_each l (λ _, onMessageReceived create raw)) w = w.
Proof. apply exec_for_each_frame. intros _ w'. apply exec_onMessageReceived. Qed.

Lemma trace_slots {A} (l : list A) raw w :
  trace (for_each l (λ _, onMessageReceived create raw)) w
  = concat (replicate (length l) (trace (onMessageReceived create raw) w)).
Proof.
  induction l as [|x l IH]; [done|].
  rewrite trace_for_each_cons, exec_onMessageReceived, IH. done.
Qed.

Lemma exec_emit_messageReceived sender raw w :
  exec (emit_messageReceived create sender raw) w = w.
Proof. unfold emit_messageReceived. rewrite exec_bind. apply exec_slots. Qed.

Lemma trace_emit_messageReceived sender raw w :
  trace (emit_messageReceived create sender raw) w
  = concat (replicate (length (filter (λ s, s = sender) (connections w)))
              (trace (onMessageReceived create raw) w)).
Proof. unfold emit_messageReceived. rewrite trace_bind. apply trace_slots. Qed.

Lemma ingestions_concat_replicate n tr :
  ingestions (concat (replicate n tr)) = (n * ingestions tr)%nat.
Proof.
  induction n as [|n IH]; [done|].
  simpl. by rewrite ingestions_app, IH.
Qed.

(** One datagram enters the ingestion path once per connection of its
    sender. *)
Lemma ingestions_emit_messageReceived sender raw w :
  ingestions (trace (emit_messageReceived create sender raw) w)
  = length (filter (λ s, s = sender) (connections w)).
Proof.
  rewrite trace_emit_messageReceived, ingestions_concat_replicate,
    ingestions_onMessageReceived. lia.
Qed.

Lemma addMessageListener_run listener w :
  addMessageListener (Some listener) w
  = ((), with_connections (λ cs, cs ++ [listener])
           (with_messageListeners (λ ls, ls ++ [listener]) w), []).
Proof. reflexivity. Qed.

(** C1 (as amended): [addMessageListener] has no guard against a listener
    that is already registered.  Adding the same listener twice appends it
    twice to the listener list and connects its signal twice, so one
    datagram delivered through it enters the ingestion path two more times
    than before the two calls: twice for a listener that was not connected. *)
Theorem addMessageListener_twice_delivers_twice listener raw w :
  let w2 := exec (addMessageListener (Some listener) ;;
                  addMessageListener (Some listener)) w in
  m_messageListeners w2 = m_messageListeners w ++ [listener; listener]
  ∧ connections w2 = connections w ++ [listener; listener]
  ∧ ingestions (trace (emit_messageReceived create listener raw) w2)
    = (2 + ingestions (trace (emit_messageReceived create listener raw) w))%nat.
Proof.
  intros w2. subst w2. rewrite exec_bind.
  unfold exec at 1 2. rewrite !addMessageListener_run. simpl.
  rewrite <- !(assoc_L (++)). simpl. split; [done|]. split; [done|].
  rewrite !ingestions_emit_messageReceived. simpl.
  rewrite !filter_app, !length_app, !filter_cons_True by done. simpl. lia.
Qed.

(** C9: a null listener leaves the listener list, the connections and every
    other member of the controller as they were, on both entry points. *)
Theorem null_listener_is_noop w :
  addMessageListener None w = ((), w, [])
  ∧ removeMessageListener None w = ((), w, []).
Proof. split; reflexivity. Qed.

Lemma delivered_concat_replicate n tr :
  delivered tr = [] → delivered (concat (replicate n tr)) = [].
Proof.
  intros Htr. induction n as [|n IH]; [done|].
  simpl. by rewrite delivered_app, Htr, IH.
Qed.

Lemma elem_of_concat_replicate {A} (x : A) n l :
  x ∈ concat (replicate n l) → x ∈ l.
Proof.
  induction n as [|n IH]; simpl.
  - intros Hin. by apply elem_of_nil in Hin.
  - rewrite elem_of_app. intros [Hin|Hin]; [done|by apply IH].
Qed.

(** Whatever the slot hands to an overlay is the decoded datagram, and it
    is not empty. *)
Lemma delivered_onMessageReceived raw w o m :
  (o, m) ∈ delivered (trace (onMessageReceived create raw) w) →
  m = create raw ∧ Message.isEmpty m = false.
Proof.
  unfold trace. rewrite onMessageReceived_run. simpl.
  destruct (Message.isEmpty (create raw)) eqn:Hempty; simpl.
  { intros Hin. by apply elem_of_nil in Hin. }
  unfold delivered. rewrite omap_app.
  destruct (LocationBroadcast.enabled _); simpl;
    destruct (is_own_broadcast _ _); simpl;
    try (intros Hin; by apply elem_of_nil in Hin);
    (destruct (MessageFeedListModel.messageFeedByType _ _); simpl;
     [|intros Hin; by apply elem_of_nil in Hin]);
    intros Hin; apply list_elem_of_singleton in Hin; by simplify_eq.
Qed.

(** C2: a non-empty message is kept from routing (the registry is not
    consulted and no overlay receives it) exactly when the broadcast is
    enabled and its last sent message carries the same identifier; in
    particular, when a feed matches the message type, the feed's overlay
    receives the message if and only if that is not the case, so a message
    of the same type with another identifier is routed. *)
Theorem suppressed_iff_own_broadcast raw w
  (Hnonempty : Message.isEmpty (create raw) = false) :
  let m := create raw in
  let lb := m_locationBroadcast w in
  let tr := trace (onMessageReceived create raw) w in
  let own := LocationBroadcast.enabled lb = true
             ∧ Message.messageId (LocationBroadcast.message lb) = Message.messageId m in
  (((MessageFeedListModel_messageFeedByType (Message.messageType m) ∉ tr)
    ∧ (∀ o m', (o, m') ∉ delivered tr)) ↔ own)
  ∧ ∀ feed,
      MessageFeedListModel.messageFeedByType (Message.messageType m) (m_messageFeeds w)
      = Some feed →
      (own → delivered tr = [])
      ∧ (¬ own →
         delivered tr = [(MessagesOverlay.address (MessageFeed.messagesOverlay feed), m)]).
Proof.
  intros m lb tr own. subst m lb tr.
  assert (is_own_broadcast w (create raw) = true ↔ own) as Hspec
    by apply is_own_broadcast_spec.
  unfold trace. rewrite onMessageReceived_run. simpl. rewrite Hnonempty.
  destruct (is_own_broadcast w (create raw)) eqn:Hown.
  - assert own as Hyes by (by apply Hspec).
    split.
    + split; [done|]. intros _. split.
      * destruct (LocationBroadcast.enabled _); simpl;
          rewrite !not_elem_of_cons; repeat split; try done; apply not_elem_of_nil.
      * intros o m'. destruct (LocationBroadcast.enabled _); simpl; apply not_elem_of_nil.
    + intros feed _. split; [|done]. intros _.
      by destruct (LocationBroadcast.enabled _).
  - assert (¬ own) as Hno by (rewrite <- Hspec; congruence).
    split.
    + split; [|done]. intros [Hlookup _]. exfalso. apply Hlookup.
      destruct (LocationBroadcast.enabled _); simpl;
        rewrite ?elem_of_cons; auto.
    + intros feed ->. split; [done|]. intros _.
      by destruct (LocationBroadcast.enabled _).
Qed.

(** C8: a non-empty message that is not the controller's own broadcast and
    whose type no registered feed carries is dropped: the slot only reads,
    the controller is unchanged, no overlay is called and no signal is
    emitted. *)
Theorem unrouted_message_dropped raw w
  (Hnonempty : Message.isEmpty (create raw) = false)
  (Hother : is_own_broadcast w (create raw) = false)
  (Hnofeed : ∀ feed, feed ∈ m_messageFeeds w →
               MessageFeed.feedMessageType feed ≠ Message.messageType (create raw)) :
  let tr := trace (onMessageReceived create raw) w in
  exec (onMessageReceived create raw) w = w
  ∧ tr = Message_create raw :: LocationBroadcast_isEnabled ::
         (if LocationBroadcast.enabled (m_locationBroadcast w)
          then [LocationBroadcast_message] else []) ++
         [MessageFeedListModel_messageFeedByType (Message.messageType (create raw))]
  ∧ delivered tr = []
  ∧ emitted tr = [].
Proof.
  intros tr. subst tr. split; [apply exec_onMessageReceived|].
  apply messageFeedByType_None in Hnofeed.
  unfold trace. rewrite onMessageReceived_run. simpl.
  rewrite Hnonempty, Hother, Hnofeed.
  by destruct (LocationBroadcast.enabled _).
Qed.

(** ** The broadcast switch *)

(** C6: setting the state the broadcast already has only reads it: nothing
    changes and nothing is emitted.  Setting the opposite state changes the
    enabled flag, and only it, and emits [locationBroadcastEnabledChanged]
    once.  Hence setting a state twice in a row emits what setting it once
    emits. *)
Theorem setLocationBroadcastEnabled_idempotent w :
  let b := LocationBroadcast.enabled (m_locationBroadcast w) in
  setLocationBroadcastEnabled b w = ((), w, [LocationBroadcast_isEnabled])
  ∧ setLocationBroadcastEnabled (negb b) w
    = ((), with_locationBroadcast (LocationBroadcast.setEnabled (negb b)) w,
       [LocationBroadcast_isEnabled; Emit locationBroadcastEnabledChanged])
  ∧ ∀ b',
      emitted (trace (setLocationBroadcastEnabled b' ;; setLocationBroadcastEnabled b') w)
      = emitted (trace (setLocationBroadcastEnabled b') w)
      ∧ exec (setLocationBroadcastEnabled b' ;; setLocationBroadcastEnabled b') w
        = exec (setLocationBroadcastEnabled b') w.
Proof.
  destruct w as [gv feeds ls [en fr ty port msg] path cs c d n]; simpl.
  split; [|split].
  - unfold setLocationBroadcastEnabled, locationBroadcast_isEnabled,
      mbind, M_bind, mret, M_ret, perform, get; simpl.
    by rewrite decide_True.
  - unfold setLocationBroadcastEnabled, locationBroadcast_isEnabled,
      mbind, M_bind, mret, M_ret, perform, get, modify; simpl.
    rewrite decide_False; [done|by destruct en].
  - intros b'. by destruct en, b'.
Qed.

(** ** Renderers and the style cache *)

Lemma createRenderer_standard rendererInfo std w :
  standard_of rendererInfo = Some std →
  createRenderer rendererInfo w =
  match cached std w with
  | Some st => (DictionaryRenderer (next_addr w) st, with_next_addr (S (next_addr w)) w, [])
  | None =>
      (DictionaryRenderer (S (next_addr w)) (style_for std w),
       with_next_addr (S (S (next_addr w))) (with_cached std (Some (style_for std w)) w),
       [New_DictionarySymbolStyle (style_for std w)])
  end.
Proof.
  unfold standard_of, createRenderer.
  destruct (Qt.compare_CaseInsensitive rendererInfo "mil2525c" =? 0).
  - intros [= <-]. simpl.
    unfold mbind, M_bind, get. simpl.
    by destruct (dictionarySymbolStyleMil2525c w).
  - destruct (Qt.compare_CaseInsensitive rendererInfo "mil2525d" =? 0); [|done].
    intros [= <-]. simpl.
    unfold mbind, M_bind, get. simpl.
    by destruct (dictionarySymbolStyleMil2525d w).
Qed.

Lemma createRenderer_picture rendererInfo w :
  standard_of rendererInfo = None →
  createRenderer rendererInfo w =
  (SimpleRenderer (S (next_addr w))
     {| symbol_addr := next_addr w;
        image := ":/Resources/icons/xhdpi/message/" +:+ rendererInfo;
        width := 40; height := 40 |},
   with_next_addr (S (S (next_addr w))) w, []).
Proof.
  unfold standard_of, createRenderer.
  destruct (Qt.compare_CaseInsensitive rendererInfo "mil2525c" =? 0); [done|].
  by destruct (Qt.compare_CaseInsensitive rendererInfo "mil2525d" =? 0).
Qed.

(** Once a style is cached it stays cached, whatever is resolved next. *)
Lemma cached_createRenderer_stable rendererInfo std st w :
  cached std w = Some st → cached std (exec (createRenderer rendererInfo) w) = Some st.
Proof.
  intros Hc. unfold exec.
  destruct (standard_of rendererInfo) as [std'|] eqn:Hstd.
  - rewrite (createRenderer_standard _ _ _ Hstd).
    destruct (cached std' w) eqn:Hc'; simpl.
    + by destruct std.
    + by destruct std, std'; simpl in *; try congruence.
  - rewrite (createRenderer_picture _ _ Hstd). by destruct std.
Qed.

(** ** Applying a configuration *)

Lemma setResourcePath_run path w :
  setResourcePath path w =
  if decide (path = m_resourcePath w) then ((), w, [])
  else ((), with_resourcePath path w,
        [Emit (propertyChanged RESOURCE_DIRECTORY_PROPERTYNAME path)]).
Proof.
  unfold setResourcePath, mbind, M_bind, get. simpl. by case_decide.
Qed.

Lemma setProperties_udpPort_run udpPort w :
  setProperties_udpPort os_bind udpPort w =
  let socket := next_addr w in
  let port := Qt.to_quint16 (Qt.toInt udpPort) in
  ((), with_connections (λ cs, cs ++ [S socket])
         (with_messageListeners (λ ls, ls ++ [S socket])
            (with_next_addr (S (S socket)) w)),
   [QUdpSocket_bind socket port (os_bind socket port); New_MessageListener (S socket) socket]).
Proof. reflexivity. Qed.

Lemma setProperties_messageFeed_run entry w :
  setProperties_messageFeed entry w =
  match feed_entry entry with
  | None => ((), w, [])
  | Some (name, ty, rendererInfo) =>
      let renderer := result (createRenderer rendererInfo) w in
      let w1 := exec (createRenderer rendererInfo) w in
      let overlay := MessagesOverlay.Build (next_addr w1) (m_geoView w1) renderer in
      let feed := MessageFeed.Build (S (next_addr w1)) name ty overlay in
      ((), with_messageFeeds (MessageFeedListModel.append feed)
             (with_next_addr (S (S (next_addr w1))) w1),
       trace (createRenderer rendererInfo) w)
  end.
Proof.
  unfold setProperties_messageFeed, feed_entry.
  destruct (Qt.split ":" entry) as [|name [|ty [|rendererInfo [|extra rest]]]]; try done.
  simpl. unfold lookup_total, list_lookup_total. simpl.
  unfold mbind, M_bind, result, exec, trace.
  destruct (createRenderer rendererInfo w) as [[renderer w1] tr]. simpl.
  by rewrite app_nil_r.
Qed.

(** What [createRenderer] leaves alone. *)
Lemma createRenderer_frame rendererInfo w :
  let w1 := exec (createRenderer rendererInfo) w in
  m_geoView w1 = m_geoView w
  ∧ m_messageFeeds w1 = m_messageFeeds w
  ∧ m_messageListeners w1 = m_messageListeners w
  ∧ m_locationBroadcast w1 = m_locationBroadcast w
  ∧ m_resourcePath w1 = m_resourcePath w
  ∧ connections w1 = connections w.
Proof.
  unfold exec.
  destruct (standard_of rendererInfo) as [std|] eqn:Hstd.
  - rewrite (createRenderer_standard _ _ _ Hstd).
    destruct (cached std w); [done|]. by destruct std.
  - by rewrite (createRenderer_picture _ _ Hstd).
Qed.

Lemma createRenderer_trace rendererInfo w :
  trace (createRenderer rendererInfo) w = New_DictionarySymbolStyle <$> loaded (trace (createRenderer rendererInfo) w).
Proof.
  unfold trace.
  destruct (standard_of rendererInfo) as [std|] eqn:Hstd.
  - rewrite (createRenderer_standard _ _ _ Hstd). by destruct (cached std w).
  - by rewrite (createRenderer_picture _ _ Hstd).
Qed.

(** The loop over the ports: one socket and one listener per entry, at
    consecutive fresh addresses. *)
Lemma for_each_udpPort_run ports w :
  for_each ports (setProperties_udpPort os_bind) w =
  let n := next_addr w in
  let listeners := imap (λ i _, S (n + 2 * i))%nat ports in
  ((), with_connections (λ cs, cs ++ listeners)
         (with_messageListeners (λ ls, ls ++ listeners)
            (with_next_addr (n + 2 * length ports)%nat w)),
   concat (imap (λ i udpPort,
             let socket := (n + 2 * i)%nat in
             let port := Qt.to_quint16 (Qt.toInt udpPort) in
             [QUdpSocket_bind socket port (os_bind socket port);
              New_MessageListener (S socket) socket]) ports)).
Proof.
  revert w. induction ports as [|udpPort ports IH]; intros w.
  - destruct w as [gv feeds ls lb path cs c d n]. simpl.
    unfold mret, M_ret, with_connections, with_messageListeners, with_next_addr.
    simpl. rewrite !app_nil_r. do 3 f_equal. lia.
  - cbn [for_each]. rewrite run_bind. unfold result, exec, trace.
    rewrite setProperties_udpPort_run. cbn zeta. cbn [fst snd]. rewrite IH.
    cbn zeta. cbn [fst snd]. rewrite !imap_cons. cbn [concat].
    destruct w as [gv feeds ls lb path cs c d n].
    unfold with_connections, with_messageListeners, with_next_addr. simpl.
    rewrite <- !(assoc_L (++)). simpl.
    replace (n + 0)%nat with n by lia.
    assert (∀ i, (n + S (i + S (i + 0)) = S (S (n + (i + (i + 0)))))%nat) as Hshift
      by (intros; lia).
    f_equal; [f_equal|].
    + f_equal; [| |lia];
        do 2 f_equal; apply imap_ext; intros i ? _; simpl; by rewrite Hshift.
    + do 3 f_equal. apply imap_ext. intros i ? _. simpl. by rewrite Hshift.
Qed.

Lemma cached_messageFeed_stable entry std st w :
  cached std w = Some st →
  cached std (exec (setProperties_messageFeed entry) w) = Some st.
Proof.
  intros Hc. unfold exec. rewrite setProperties_messageFeed_run.
  destruct (feed_entry entry) as [[[name ty] rendererInfo]|]; [|done].
  simpl. pose proof (cached_createRenderer_stable rendererInfo std st w Hc) as Hc1.
  by destruct std.
Qed.

Lemma cached_for_each_messageFeed_stable entries std st w :
  cached std w = Some st →
  cached std (exec (for_each entries setProperties_messageFeed) w) = Some st.
Proof.
  revert w. induction entries as [|entry entries IH]; intros w Hc; [done|].
  rewrite exec_for_each_cons. by apply IH, cached_messageFeed_stable.
Qed.

(** The loop over the feed entries appends one feed per well-formed entry,
    in order, and nothing for the others. *)
Lemma for_each_messageFeed_feeds entries w :
  let w' := exec (for_each entries setProperties_messageFeed) w in
  ∃ new, m_messageFeeds w' = m_messageFeeds w ++ new
         ∧ Forall2 (feed_from w') (omap feed_entry entries) new.
Proof.
  revert w. induction entries as [|entry entries IH]; intros w.
  { exists []. split; [by rewrite app_nil_r|constructor]. }
  cbn zeta. rewrite exec_for_each_cons.
  destruct (IH (exec (setProperties_messageFeed entry) w)) as (new & Hfeeds & Hnew).
  cbn zeta in *.
  set (w' := exec (for_each entries setProperties_messageFeed)
               (exec (setProperties_messageFeed entry) w)) in *.
  assert (∀ std st, cached std (exec (setProperties_messageFeed entry) w) = Some st →
                    cached std w' = Some st) as Hstable.
  { intros std st. apply cached_for_each_messageFeed_stable. }
  clearbody w'. revert Hfeeds Hstable.
  unfold exec at 1 2. rewrite setProperties_messageFeed_run. simpl.
  destruct (feed_entry entry) as [[[name ty] rendererInfo]|] eqn:Hentry; simpl.
  2:{ intros Hfeeds _. by exists new. }
  intros Hfeeds Hstable.
  pose proof (createRenderer_frame rendererInfo w) as (_ & Hf & _).
  cbn zeta in Hf.
  eexists (_ :: new). split.
  { rewrite Hfeeds. unfold MessageFeedListModel.append. simpl.
    rewrite Hf, <- (assoc_L (++)). done. }
  constructor; [|done].
  split; [done|]. split; [done|]. simpl.
  destruct (standard_of rendererInfo) as [std|] eqn:Hstd.
  - assert (∃ st, renderer_style (result (createRenderer rendererInfo) w) = Some st
                  ∧ cached std (exec (createRenderer rendererInfo) w) = Some st)
      as (st & Hstyle & Hcached).
    { unfold result, exec. rewrite (createRenderer_standard _ _ _ Hstd).
      destruct (cached std w) as [st|] eqn:Hc; simpl.
      - exists st. split; [done|by destruct std].
      - exists (style_for std w). split; [done|by destruct std]. }
    rewrite Hstyle. split; [done|]. symmetry. apply Hstable.
    by destruct std.
  - unfold result. rewrite (createRenderer_picture _ _ Hstd). simpl.
    eexists _, _. split; [reflexivity|]. done.
Qed.

(** What the loop over the feed entries leaves alone. *)
Lemma for_each_messageFeed_frame entries w :
  let w' := exec (for_each entries setProperties_messageFeed) w in
  let tr := trace (for_each entries setProperties_messageFeed) w in
  m_messageListeners w' = m_messageListeners w
  ∧ connections w' = connections w
  ∧ m_locationBroadcast w' = m_locationBroadcast w
  ∧ binds tr = [].
Proof.
  revert w. induction entries as [|entry entries IH]; intros w; [done|].
  cbn zeta. rewrite exec_for_each_cons, trace_for_each_cons.
  destruct (IH (exec (setProperties_messageFeed entry) w)) as (-> & -> & -> & Hb).
  unfold binds in *. rewrite omap_app, Hb, app_nil_r.
  unfold exec, trace. rewrite setProperties_messageFeed_run.
  destruct (feed_entry entry) as [[[name ty] rendererInfo]|]; [|done].
  simpl. pose proof (createRenderer_frame rendererInfo w) as (_ & _ & -> & -> & _ & ->).
  do 3 (split; [done|]).
  rewrite createRenderer_trace.
  by induction (loaded (trace (createRenderer rendererInfo) w)).
Qed.

(** [setProperties] is its four steps in sequence. *)
Lemma setProperties_run properties w :
  let w0 := exec (setResourcePath
                    (Qt.toString (Qt.value properties RESOURCE_DIRECTORY_PROPERTYNAME))) w in
  let ports := Qt.toStringList (Qt.value properties MESSAGE_FEED_UDP_PORTS_PROPERTYNAME) in
  let w1 := exec (for_each ports (setProperties_udpPort os_bind)) w0 in
  let entries := Qt.toStringList (Qt.value properties MESSAGE_FEEDS_PROPERTYNAME) in
  let w2 := exec (for_each entries setProperties_messageFeed) w1 in
  let config := Qt.toStringList (Qt.value properties LOCATION_BROADCAST_CONFIG_PROPERTYNAME) in
  exec (setProperties os_bind properties) w
  = match config with
    | [ty; port] =>
        with_locationBroadcast (LocationBroadcast.setUdpPort (Qt.toInt port))
          (with_locationBroadcast (LocationBroadcast.setMessageType ty) w2)
    | _ => w2
    end
  ∧ trace (setProperties os_bind properties) w
    = trace (setResourcePath
               (Qt.toString (Qt.value properties RESOURCE_DIRECTORY_PROPERTYNAME))) w
      ++ trace (for_each ports (setProperties_udpPort os_bind)) w0
      ++ trace (for_each entries setProperties_messageFeed) w1.
Proof.
  intros w0 ports w1 entries w2 config. unfold setProperties.
  rewrite !exec_bind, !trace_bind. fold w0 ports. fold w1. fold entries. fold w2.
  fold config.
  destruct config as [|ty [|port [|extra rest]]]; simpl;
    (split; [done|]); by rewrite app_nil_r.
Qed.

Lemma setResourcePath_frame path w :
  let w0 := exec (setResourcePath path) w in
  m_messageFeeds w0 = m_messageFeeds w
  ∧ m_messageListeners w0 = m_messageListeners w
  ∧ connections w0 = connections w
  ∧ m_locationBroadcast w0 = m_locationBroadcast w
  ∧ next_addr w0 = next_addr w
  ∧ binds (trace (setResourcePath path) w) = [].
Proof.
  unfold exec, trace. rewrite setResourcePath_run. by case_decide.
Qed.

Lemma binds_concat_imap {A} (F : nat → A → list Event) (G : nat → A → addr * Z * bool) l :
  (∀ i x, binds (F i x) = [G i x]) → binds (concat (imap F l)) = imap G l.
Proof.
  revert F G. induction l as [|x l IH]; intros F G HFG; [done|].
  rewrite !imap_cons. simpl. unfold binds in *. rewrite omap_app, HFG.
  simpl. f_equal. apply IH. intros i y. apply HFG.
Qed.

Lemma feed_entry_Some entry name ty rendererInfo :
  feed_entry entry = Some (name, ty, rendererInfo)
  ↔ Qt.split ":" entry = [name; ty; rendererInfo].
Proof.
  unfold feed_entry.
  destruct (Qt.split ":" entry) as [|a [|b [|c [|d rest]]]]; naive_solver.
Qed.

Lemma feed_entry_None entry :
  feed_entry entry = None ↔ length (Qt.split ":" entry) ≠ 3%nat.
Proof.
  unfold feed_entry.
  destruct (Qt.split ":" entry) as [|a [|b [|c [|d rest]]]]; simpl; naive_solver.
Qed.

Lemma toInt_failed s : Qt.toIntegral s = None → Qt.toInt s = 0.
Proof. unfold Qt.toInt. by intros ->. Qed.

(** C4: applying a configuration appends to the registry exactly one feed
    for each entry of the feed list that splits at colons into three parts,
    in the order of the list, with the name and the type of the first two
    parts and the renderer the third part asks for; an entry that does not
    split into exactly three parts adds nothing and does not disturb the
    entries before or after it. *)
Theorem setProperties_feeds properties w :
  let entries := Qt.toStringList (Qt.value properties MESSAGE_FEEDS_PROPERTYNAME) in
  let w' := exec (setProperties os_bind properties) w in
  (∃ new, m_messageFeeds w' = m_messageFeeds w ++ new
          ∧ Forall2 (feed_from w') (omap feed_entry entries) new)
  ∧ (∀ entry, feed_entry entry = None ↔ length (Qt.split ":" entry) ≠ 3%nat)
  ∧ (∀ entry name ty rendererInfo,
       feed_entry entry = Some (name, ty, rendererInfo)
       ↔ Qt.split ":" entry = [name; ty; rendererInfo]).
Proof.
  intros entries w'.
  split; [|split; [apply feed_entry_None|apply feed_entry_Some]].
  destruct (setProperties_run properties w) as [Hexec _]. cbn zeta in Hexec.
  fold entries in Hexec. subst w'. rewrite Hexec. clear Hexec.
  set (w0 := exec (setResourcePath _) w).
  set (w1 := exec (for_each _ (setProperties_udpPort os_bind)) w0).
  destruct (for_each_messageFeed_feeds entries w1) as (new & Hfeeds & Hnew).
  cbn zeta in Hfeeds, Hnew.
  set (w2 := exec (for_each entries setProperties_messageFeed) w1) in *.
  assert (m_messageFeeds w1 = m_messageFeeds w) as Hw1.
  { subst w1. unfold exec at 1. rewrite for_each_udpPort_run. simpl.
    apply (setResourcePath_frame _ w). }
  exists new.
  destruct (Qt.toStringList (Qt.value properties LOCATION_BROADCAST_CONFIG_PROPERTYNAME))
    as [|ty [|port [|extra rest]]]; simpl; by rewrite Hfeeds, Hw1.
Qed.

(** C5: a [LocationBroadcastConfig] list of any length other than two
    leaves the broadcast as it was; a list of exactly two items sets the
    broadcast's message type to the first and its port to the second
    converted with [toInt], and nothing else of the broadcast. *)
Theorem setProperties_locationBroadcastConfig properties w :
  let config := Qt.toStringList (Qt.value properties LOCATION_BROADCAST_CONFIG_PROPERTYNAME) in
  let lb := m_locationBroadcast w in
  let lb' := m_locationBroadcast (exec (setProperties os_bind properties) w) in
  match config with
  | [ty; port] =>
      LocationBroadcast.messageType lb' = ty
      ∧ LocationBroadcast.udpPort lb' = Qt.toInt port
      ∧ LocationBroadcast.enabled lb' = LocationBroadcast.enabled lb
      ∧ LocationBroadcast.frequency lb' = LocationBroadcast.frequency lb
      ∧ LocationBroadcast.message lb' = LocationBroadcast.message lb
  | _ => lb' = lb
  end.
Proof.
  intros config lb lb'. subst lb lb'.
  destruct (setProperties_run properties w) as [-> _]. fold config.
  set (w0 := exec (setResourcePath _) w).
  set (w1 := exec (for_each _ (setProperties_udpPort os_bind)) w0).
  set (w2 := exec (for_each _ setProperties_messageFeed) w1).
  assert (m_locationBroadcast w2 = m_locationBroadcast w) as Hlb.
  { subst w2. destruct (for_each_messageFeed_frame
      (Qt.toStringList (Qt.value properties MESSAGE_FEEDS_PROPERTYNAME)) w1)
      as (_ & _ & -> & _).
    subst w1. unfold exec at 1. rewrite for_each_udpPort_run. simpl.
    apply (setResourcePath_frame _ w). }
  destruct config as [|ty [|port [|extra rest]]]; simpl; by rewrite Hlb.
Qed.

(** C10: applying a configuration creates one socket and one listener for
    every entry of the port list and registers each listener, so the
    listener list and the connections grow by one per entry, whatever the
    entries are and whatever the binds return.  Each socket is asked to bind
    the entry converted with [toInt]; an entry that is not a number gives
    port 0 and still gets its listener. *)
Theorem setProperties_one_listener_per_port properties w :
  let ports := Qt.toStringList (Qt.value properties MESSAGE_FEED_UDP_PORTS_PROPERTYNAME) in
  let w' := exec (setProperties os_bind properties) w in
  let tr := trace (setProperties os_bind properties) w in
  let n := next_addr w in
  let listeners := imap (λ i _, S (n + 2 * i))%nat ports in
  m_messageListeners w' = m_messageListeners w ++ listeners
  ∧ connections w' = connections w ++ listeners
  ∧ length (m_messageListeners w') = (length (m_messageListeners w) + length ports)%nat
  ∧ binds tr = imap (λ i udpPort,
                 let port := Qt.to_quint16 (Qt.toInt udpPort) in
                 ((n + 2 * i)%nat, port, os_bind (n + 2 * i)%nat port)) ports
  ∧ ∀ udpPort, Qt.toIntegral udpPort = None → Qt.to_quint16 (Qt.toInt udpPort) = 0.
Proof.
  intros ports w' tr n listeners.
  destruct (setProperties_run properties w) as [Hexec Htrace]. cbn zeta in Hexec, Htrace.
  fold ports in Hexec, Htrace.
  set (w0 := exec (setResourcePath _) w) in *.
  set (w1 := exec (for_each ports (setProperties_udpPort os_bind)) w0) in *.
  set (entries := Qt.toStringList (Qt.value properties MESSAGE_FEEDS_PROPERTYNAME)) in *.
  set (w2 := exec (for_each entries setProperties_messageFeed) w1) in *.
  destruct (setResourcePath_frame
              (Qt.toString (Qt.value properties RESOURCE_DIRECTORY_PROPERTYNAME)) w)
    as (_ & Hls0 & Hcs0 & _ & Hn0 & Hb0).
  cbn zeta in Hls0, Hcs0, Hn0. fold w0 in Hls0, Hcs0, Hn0.
  destruct (for_each_messageFeed_frame entries w1) as (Hls2 & Hcs2 & _ & Hb2).
  fold w2 in Hls2, Hcs2.
  assert (m_messageListeners w1 = m_messageListeners w ++ listeners
          ∧ connections w1 = connections w ++ listeners) as [Hls1 Hcs1].
  { subst w1. unfold exec at 1 2. rewrite for_each_udpPort_run. simpl.
    by rewrite Hls0, Hcs0, Hn0. }
  assert (m_messageListeners w' = m_messageListeners w ++ listeners
          ∧ connections w' = connections w ++ listeners) as [Hls Hcs].
  { subst w'. rewrite Hexec.
    destruct (Qt.toStringList (Qt.value properties LOCATION_BROADCAST_CONFIG_PROPERTYNAME))
      as [|ty [|port [|extra rest]]]; simpl; by rewrite Hls2, Hcs2. }
  split; [done|]. split; [done|]. split.
  { rewrite Hls, length_app. subst listeners. by rewrite length_imap. }
  split.
  - subst tr. rewrite Htrace. unfold binds in *. rewrite !omap_app, Hb0, Hb2, app_nil_r.
    simpl. unfold trace. rewrite for_each_udpPort_run. cbn zeta. cbn [snd].
    rewrite Hn0. by apply binds_concat_imap.
  - intros udpPort Hfail. by rewrite toInt_failed.
Qed.

(** ** The style cache over the life of a controller *)

Lemma cached_frame std w w' :
  dictionarySymbolStyleMil2525c w' = dictionarySymbolStyleMil2525c w →
  dictionarySymbolStyleMil2525d w' = dictionarySymbolStyleMil2525d w →
  cached std w' = cached std w.
Proof. by destruct std. Qed.

Lemma cached_setProperties_stable properties std st w :
  cached std w = Some st →
  cached std (exec (setProperties os_bind properties) w) = Some st.
Proof.
  intros Hc. destruct (setProperties_run properties w) as [-> _].
  set (w0 := exec (setResourcePath _) w).
  set (w1 := exec (for_each _ (setProperties_udpPort os_bind)) w0).
  set (w2 := exec (for_each _ setProperties_messageFeed) w1).
  assert (cached std w2 = Some st) as Hc2.
  { apply cached_for_each_messageFeed_stable.
    subst w1. unfold exec at 1. rewrite for_each_udpPort_run. simpl.
    rewrite <- Hc. subst w0. unfold exec. rewrite setResourcePath_run.
    case_decide; by destruct std. }
  destruct (Qt.toStringList (Qt.value properties LOCATION_BROADCAST_CONFIG_PROPERTYNAME))
    as [|ty [|port [|extra rest]]]; try done; rewrite <- Hc2; by destruct std.
Qed.

(** No call clears or replaces a cached style. *)
Lemma cached_call_stable c std st w :
  cached std w = Some st → cached std (exec (call create os_bind c) w) = Some st.
Proof.
  intros Hc. destruct c as [gv|l|l|properties|path|b|f|rendererInfo|sender raw|sent]; simpl.
  - rewrite <- Hc. by destruct std.
  - destruct l; [|done]. rewrite <- Hc. by destruct std.
  - destruct l; [|done]. rewrite <- Hc. by destruct std.
  - by apply cached_setProperties_stable.
  - unfold exec. rewrite setResourcePath_run. rewrite <- Hc. case_decide; by destruct std.
  - unfold exec, setLocationBroadcastEnabled, locationBroadcast_isEnabled,
      mbind, M_bind, perform, get. simpl. rewrite <- Hc. case_decide; by destruct std.
  - unfold exec, setLocationBroadcastFrequency, locationBroadcast_frequency,
      mbind, M_bind, perform, get. simpl. rewrite <- Hc. case_decide; by destruct std.
  - rewrite exec_bind. by apply cached_createRenderer_stable.
  - by rewrite exec_emit_messageReceived.
  - rewrite <- Hc. by destruct std.
Qed.

Lemma cached_for_each_call_stable calls std st w :
  cached std w = Some st →
  cached std (exec (for_each calls (call create os_bind)) w) = Some st.
Proof.
  revert w. induction calls as [|c calls IH]; intros w Hc; [done|].
  rewrite exec_for_each_cons. by apply IH, cached_call_stable.
Qed.

(** C7: for a specification that names one of the two standards
    ("mil2525c" or "mil2525d", in any letter case), the first resolution
    constructs the style and stores it in the static, and every later
    resolution of that standard, whatever the controller was asked to do in
    between, returns a renderer over that same style object and constructs
    nothing.  Any other
    specification gives a new simple renderer over a new 40 by 40 picture
    marker and leaves the statics alone, so a further call gives another
    object. *)
Theorem createRenderer_caches_standards rendererInfo w :
  let r := result (createRenderer rendererInfo) w in
  let w' := exec (createRenderer rendererInfo) w in
  let tr := trace (createRenderer rendererInfo) w in
  match standard_of rendererInfo with
  | Some std =>
      match cached std w with
      | None =>
          loaded tr = [style_for std w]
          ∧ cached std w' = Some (style_for std w)
          ∧ renderer_style r = Some (style_for std w)
      | Some st =>
          loaded tr = [] ∧ cached std w' = Some st ∧ renderer_style r = Some st
      end
      ∧ ∀ calls again,
          standard_of again = Some std →
          let w2 := exec (for_each calls (call create os_bind)) w' in
          loaded (trace (createRenderer again) w2) = []
          ∧ renderer_style (result (createRenderer again) w2) = renderer_style r
  | None =>
      r = SimpleRenderer (S (next_addr w))
            {| symbol_addr := next_addr w;
               image := ":/Resources/icons/xhdpi/message/" +:+ rendererInfo;
               width := 40; height := 40 |}
      ∧ w' = with_next_addr (S (S (next_addr w))) w
      ∧ tr = []
      ∧ ∀ again, renderer_addr (result (createRenderer again) w') ≠ renderer_addr r
  end.
Proof.
  intros r w' tr. subst r w' tr. unfold result, exec, trace.
  destruct (standard_of rendererInfo) as [std|] eqn:Hstd.
  - rewrite (createRenderer_standard _ _ _ Hstd).
    assert (∃ st, cached std (createRenderer rendererInfo w).1.2 = Some st
                  ∧ renderer_style (createRenderer rendererInfo w).1.1 = Some st)
      as (st & Hcached & Hstyle).
    { rewrite (createRenderer_standard _ _ _ Hstd).
      destruct (cached std w) as [st|] eqn:Hc; simpl.
      - exists st. split; [by destruct std|done].
      - exists (style_for std w). split; [by destruct std|done]. }
    rewrite (createRenderer_standard _ _ _ Hstd) in Hcached, Hstyle.
    split.
    + destruct (cached std w) as [st0|] eqn:Hc; simpl in *.
      * split; [done|]. split; [by destruct std|done].
      * split; [done|]. split; [by destruct std|done].
    + intros calls again Hagain. cbv zeta.
      pose proof (cached_for_each_call_stable calls std st _ Hcached) as Hc2.
      unfold exec in Hc2.
      rewrite (createRenderer_standard _ _ _ Hagain), Hc2. simpl.
      by rewrite Hstyle.
  - rewrite (createRenderer_picture _ _ Hstd). simpl.
    split; [done|]. split; [done|]. split; [done|].
    intros again.
    destruct (standard_of again) as [std|] eqn:Hagain.
    + rewrite (createRenderer_standard _ _ _ Hagain).
      destruct (cached std _); simpl; lia.
    + rewrite (createRenderer_picture _ _ Hagain). simpl. lia.
Qed.

(** ** What reaches the overlays *)

Lemma delivered_for_each_nil {A} (l : list A) body w :
  (∀ x w', delivered (trace (body x) w') = []) →
  delivered (trace (for_each l body) w) = [].
Proof.
  intros Hbody. revert w. induction l as [|x l IH]; intros w; [done|].
  by rewrite trace_for_each_cons, delivered_app, Hbody, IH.
Qed.

Lemma delivered_createRenderer rendererInfo w :
  delivered (trace (createRenderer rendererInfo) w) = [].
Proof.
  rewrite createRenderer_trace.
  by induction (loaded (trace (createRenderer rendererInfo) w)).
Qed.

Lemma delivered_setProperties properties w :
  delivered (trace (setProperties os_bind properties) w) = [].
Proof.
  destruct (setProperties_run properties w) as [_ ->].
  rewrite !delivered_app, !delivered_for_each_nil.
  - unfold trace. rewrite setResourcePath_run. by case_decide.
  - intros entry w'. unfold trace. rewrite setProperties_messageFeed_run.
    destruct (feed_entry entry) as [[[name ty] rendererInfo]|]; [|done].
    apply delivered_createRenderer.
  - done.
Qed.

(** Only the slot hands messages to overlays, and never an empty one. *)
Lemma delivered_call c w o m :
  (o, m) ∈ delivered (trace (call create os_bind c) w) → Message.isEmpty m = false.
Proof.
  destruct c as [gv|l|l|properties|path|b|f|rendererInfo|sender raw|sent]; simpl.
  - intros Hin. by apply elem_of_nil in Hin.
  - destruct l; intros Hin; by apply elem_of_nil in Hin.
  - destruct l; intros Hin; by apply elem_of_nil in Hin.
  - rewrite delivered_setProperties. intros Hin. by apply elem_of_nil in Hin.
  - unfold trace. rewrite setResourcePath_run.
    case_decide; intros Hin; by apply elem_of_nil in Hin.
  - unfold trace, setLocationBroadcastEnabled, locationBroadcast_isEnabled,
      mbind, M_bind, perform, get. simpl.
    case_decide; intros Hin; by apply elem_of_nil in Hin.
  - unfold trace, setLocationBroadcastFrequency, locationBroadcast_frequency,
      mbind, M_bind, perform, get. simpl.
    case_decide; intros Hin; by apply elem_of_nil in Hin.
  - rewrite trace_bind, delivered_app, delivered_createRenderer. simpl.
    intros Hin. by apply elem_of_nil in Hin.
  - rewrite trace_emit_messageReceived.
    unfold delivered. rewrite list_elem_of_omap.
    intros (e & He & Hom). apply elem_of_concat_replicate in He.
    eapply (delivered_onMessageReceived raw w o m).
    unfold delivered. rewrite list_elem_of_omap. eauto.
  - intros Hin. by apply elem_of_nil in Hin.
Qed.

(** C3: a datagram that decodes to an empty message ends the slot right
    after the decoder call: the broadcast is not asked, the registry is not
    consulted, nothing changes and no overlay is called, however many
    connections deliver it.  And whatever sequence of calls and datagrams
    reaches the controller, no overlay is ever handed an empty message. *)
Theorem empty_message_never_forwarded raw w
  (Hempty : Message.isEmpty (create raw) = true) :
  onMessageReceived create raw w = ((), w, [Message_create raw])
  ∧ (∀ sender, delivered (trace (emit_messageReceived create sender raw) w) = [])
  ∧ ∀ calls w' o m,
      (o, m) ∈ delivered (trace (for_each calls (call create os_bind)) w') →
      Message.isEmpty m = false.
Proof.
  assert (onMessageReceived create raw w = ((), w, [Message_create raw])) as Hrun.
  { rewrite onMessageReceived_run. simpl. by rewrite Hempty. }
  split; [done|]. split.
  - intros sender. rewrite trace_emit_messageReceived.
    apply delivered_concat_replicate. unfold trace. by rewrite Hrun.
  - intros calls. induction calls as [|c calls IH]; intros w' o m.
    + intros Hin. by apply elem_of_nil in Hin.
    + rewrite trace_for_each_cons, delivered_app, elem_of_app.
      intros [Hin|Hin]; [by eapply delivered_call|by eapply IH].
Qed.


End Properties.

(** * Concrete runs *)

(** C1, as stated, fails: on a configured controller a new listener (at
    address 14) is added twice; the one datagram it delivers enters the
    ingestion path twice and reaches the overlay of the matching feed
    twice. *)
Lemma addMessageListener_twice_ingests_twice :
  let w2 := exec Sample.add_twice Sample.configured in
  let tr := trace (emit_messageReceived Sample.decode 14%nat "friendly:1") w2 in
  result Sample.add_twice Sample.configured = Some 14%nat
  ∧ ingestions tr ≠ 1%nat
  ∧ ingestions tr = 2%nat
  ∧ delivered tr = [(7%nat, Message.Build "friendly" 1 "friendly:1" false);
                    (7%nat, Message.Build "friendly" 1 "friendly:1" false)].
Proof. vm_compute. split; [reflexivity|]. split; [discriminate|]. split; reflexivity. Qed.

Lemma suppressed_iff_own_broadcast_witness :
  delivered (trace (onMessageReceived Sample.decode "position:7") Sample.broadcasting) = []
  ∧ delivered (trace (onMessageReceived Sample.decode "position:8") Sample.broadcasting)
    = [(11%nat, Message.Build "position" 8 "position:8" false)].
Proof.
  split.
  - destruct (suppressed_iff_own_broadcast Sample.decode "position:7" Sample.broadcasting)
      as [_ Hfeed]; [reflexivity|].
    edestruct Hfeed as [Hsuppressed _]; [vm_compute; reflexivity|].
    apply Hsuppressed. split; reflexivity.
  - destruct (suppressed_iff_own_broadcast Sample.decode "position:8" Sample.broadcasting)
      as [_ Hfeed]; [reflexivity|].
    edestruct Hfeed as [_ Hrouted]; [vm_compute; reflexivity|].
    apply Hrouted. intros [_ Hid]. vm_compute in Hid. discriminate.
Defined.

Lemma empty_message_never_forwarded_witness :
  onMessageReceived Sample.decode "garbage" Sample.configured
  = ((), Sample.configured, [Message_create "garbage"]).
Proof.
  apply (empty_message_never_forwarded Sample.decode Sample.bind_ok "garbage"
           Sample.configured).
  reflexivity.
Defined.

Lemma unrouted_message_dropped_witness :
  exec (onMessageReceived Sample.decode "hostile:2") Sample.configured = Sample.configured
  ∧ delivered (trace (onMessageReceived Sample.decode "hostile:2") Sample.configured) = [].
Proof.
  destruct (unrouted_message_dropped Sample.decode "hostile:2" Sample.configured)
    as (Hexec & _ & Hdelivered & _).
  - reflexivity.
  - reflexivity.
  - intros feed Hin. vm_compute in Hin.
    repeat (apply elem_of_cons in Hin as [->|Hin]; [discriminate|]).
    by apply elem_of_nil in Hin.
  - split; assumption.
Defined.

(** The sample configuration gives two listeners, of which the second was
    asked to bind port 0, two feeds, and one style load. *)
Example configured_run :
  m_messageListeners Sample.configured = [2%nat; 4%nat]
  ∧ connections Sample.configured = [2%nat; 4%nat]
  ∧ (MessageFeed.feedName <$> m_messageFeeds Sample.configured) = ["Friendly"; "Cot"]
  ∧ binds (trace (setProperties Sample.bind_ok Sample.config) Sample.fresh)
    = [(1%nat, 4000, true); (3%nat, 0, false)]
  ∧ length (loaded (trace (setProperties Sample.bind_ok Sample.config) Sample.fresh)) = 1%nat.
Proof. vm_compute. repeat split. Qed.

(** With the broadcast disabled, a datagram of a configured type reaches the
    overlay of its feed through the listener at address 2, and a datagram
    of a type without a feed reaches none. *)
Example routed_and_dropped :
  delivered (trace (emit_messageReceived Sample.decode 2%nat "friendly:1") Sample.configured)
  = [(7%nat, Message.Build "friendly" 1 "friendly:1" false)]
  ∧ delivered (trace (emit_messageReceived Sample.decode 2%nat "hostile:2") Sample.configured)
    = [].
Proof. vm_compute. by split. Qed.

(** A port outside the 16-bit range wraps when it is passed to [bind]. *)
Example port_wraps : Qt.to_quint16 (Qt.toInt "70000") = 4464.
Proof. reflexivity. Qed.

(** Removing a listener that was added twice leaves it in the list once but
    without any connection. *)
Example remove_after_double_add :
  let w := exec (addMessageListener (Some 50%nat) ;; addMessageListener (Some 50%nat) ;;
                 removeMessageListener (Some 50%nat)) Sample.fresh in
  m_messageListeners w = [50%nat] ∧ connections w = [].
Proof. vm_compute. by split. Qed.

(** * Further properties of the controller *)

Section Lifecycle.

Variable create : string → Message.t.
Variable os_bind : addr → Z → bool.

(** ** Removing listeners *)

Lemma removeOne_absent `{EqDecision A} (x : A) l : x ∉ l → Qt.removeOne x l = l.
Proof.
  induction l as [|y l IH]; simpl; [done|].
  rewrite not_elem_of_cons. intros [Hxy Hx].
  rewrite decide_False by done. by rewrite IH.
Qed.

Lemma removeOne_app_new `{EqDecision A} (x : A) l : x ∉ l → Qt.removeOne x (l ++ [x]) = l.
Proof.
  induction l as [|y l IH]; simpl.
  - intros _. by rewrite decide_True.
  - rewrite not_elem_of_cons. intros [Hxy Hx].
    rewrite decide_False by done. by rewrite IH.
Qed.

Lemma removeOne_present `{EqDecision A} (x : A) l : x ∈ l → l ≡ₚ x :: Qt.removeOne x l.
Proof.
  induction l as [|y l IH]; simpl.
  - intros Hin. by apply elem_of_nil in Hin.
  - intros Hin. case_decide as Hyx; [by subst|].
    apply elem_of_cons in Hin as [->|Hin]; [done|].
    rewrite (IH Hin) at 1. apply Permutation_swap.
Qed.

Lemma removeOne_sublist `{EqDecision A} (x : A) l : Qt.removeOne x l `sublist_of` l.
Proof.
  induction l as [|y l IH]; simpl; [done|].
  case_decide; [by apply sublist_cons|by apply sublist_skip].
Qed.

Lemma elem_of_removeOne_other `{EqDecision A} (x y : A) l :
  y ≠ x → y ∈ l → y ∈ Qt.removeOne x l.
Proof.
  intros Hyx. induction l as [|z l IH]; simpl; [done|].
  rewrite elem_of_cons. intros [->|Hin].
  - rewrite decide_False by done. by left.
  - case_decide; [done|]. right. by apply IH.
Qed.

Lemma removeOne_added_twice `{EqDecision A} (x : A) l : x ∈ Qt.removeOne x (l ++ [x; x]).
Proof.
  induction l as [|y l IH]; simpl.
  - rewrite decide_True by done. by left.
  - case_decide; [|by right]. apply elem_of_app. right. by left.
Qed.

Lemma filter_other_app_new (x : addr) (l : list addr) :
  x ∉ l → filter (λ s, s ≠ x) (l ++ [x]) = l.
Proof.
  intros Hx. rewrite filter_app, filter_cons_False, filter_nil, app_nil_r by (by intros ?).
  induction l as [|y l IH]; [done|].
  apply not_elem_of_cons in Hx as [Hxy Hx].
  rewrite filter_cons_True by done. by rewrite IH.
Qed.

Lemma removeMessageListener_run listener w :
  removeMessageListener (Some listener) w
  = ((), with_connections (filter (λ s, s ≠ listener))
           (with_messageListeners (Qt.removeOne listener) w), []).
Proof. reflexivity. Qed.

(** X1: adding a listener that is neither listed nor connected and removing
    it again gives back the controller as it was, with nothing observable
    done in between. *)
Theorem add_then_remove_restores listener w
  (Hunlisted : listener ∉ m_messageListeners w)
  (Hunconnected : listener ∉ connections w) :
  (addMessageListener (Some listener) ;; removeMessageListener (Some listener)) w
  = ((), w, []).
Proof.
  rewrite run_bind. unfold result, exec, trace.
  rewrite addMessageListener_run. cbn [fst snd]. rewrite removeMessageListener_run.
  destruct w as [gv feeds ls lb path cs c d n]. simpl in *.
  unfold with_connections, with_messageListeners. simpl.
  by rewrite removeOne_app_new, filter_other_app_new.
Qed.

(** The trace of the slot depends on the broadcast and the registry only. *)
Lemma trace_onMessageReceived_ext raw w w' :
  m_locationBroadcast w' = m_locationBroadcast w →
  m_messageFeeds w' = m_messageFeeds w →
  trace (onMessageReceived create raw) w' = trace (onMessageReceived create raw) w.
Proof.
  intros Hlb Hfeeds. unfold trace. rewrite !onMessageReceived_run.
  unfold is_own_broadcast. simpl. by rewrite Hlb, Hfeeds.
Qed.

Lemma filter_eq_of_filter_ne (x y : addr) (l : list addr) :
  y ≠ x → filter (λ s, s = y) (filter (λ s, s ≠ x) l) = filter (λ s, s = y) l.
Proof.
  intros Hyx. induction l as [|z l IH]; [done|].
  destruct (decide (z = x)) as [->|Hzx].
  - rewrite (filter_cons_False (λ s, s ≠ x)) by (by intros ?).
    rewrite (filter_cons_False (λ s, s = y)) by (by intros ->). done.
  - rewrite (filter_cons_True (λ s, s ≠ x)) by done.
    destruct (decide (z = y)) as [->|Hzy].
    + rewrite !(filter_cons_True (λ s, s = y)) by done. by rewrite IH.
    + rewrite !(filter_cons_False (λ s, s = y)) by done. done.
Qed.

Lemma filter_eq_of_filter_ne_same (x : addr) (l : list addr) :
  filter (λ s, s = x) (filter (λ s, s ≠ x) l) = [].
Proof.
  induction l as [|z l IH]; [done|].
  destruct (decide (z = x)) as [->|Hzx].
  - by rewrite (filter_cons_False (λ s, s ≠ x)) by (by intros ?).
  - rewrite (filter_cons_True (λ s, s ≠ x)) by done.
    by rewrite (filter_cons_False (λ s, s = x)) by done.
Qed.

(** X2: once a listener is removed, a datagram it emits does not reach the
    slot at all, however often the listener had been added before; what the
    other senders deliver is not affected. *)
Theorem removeMessageListener_silences listener raw w :
  let w' := exec (removeMessageListener (Some listener)) w in
  trace (emit_messageReceived create listener raw) w' = []
  ∧ ∀ other, other ≠ listener →
      trace (emit_messageReceived create other raw) w'
      = trace (emit_messageReceived create other raw) w.
Proof.
  intros w'. subst w'. unfold exec at 1 2. rewrite removeMessageListener_run.
  cbn [fst snd]. split.
  - rewrite trace_emit_messageReceived. simpl.
    by rewrite filter_eq_of_filter_ne_same.
  - intros other Hother. rewrite !trace_emit_messageReceived. simpl.
    rewrite filter_eq_of_filter_ne by done.
    by rewrite (trace_onMessageReceived_ext raw w).
Qed.

(** X3: [removeMessageListener] takes one occurrence of the listener out of
    the listener list, keeping the order of the rest, and nothing when the
    listener is not listed; and it leaves the listener without any
    connection.  A listener that was added twice is therefore still listed
    after one removal, but no longer connected. *)
Theorem removeMessageListener_removes_one listener w :
  let w' := exec (removeMessageListener (Some listener)) w in
  (if decide (listener ∈ m_messageListeners w)
   then m_messageListeners w ≡ₚ listener :: m_messageListeners w'
   else m_messageListeners w' = m_messageListeners w)
  ∧ m_messageListeners w' `sublist_of` m_messageListeners w
  ∧ connections_of listener w' = 0%nat
  ∧ (let w2 := exec (addMessageListener (Some listener) ;;
                     addMessageListener (Some listener) ;;
                     removeMessageListener (Some listener)) w in
     listener ∈ m_messageListeners w2 ∧ connections_of listener w2 = 0%nat).
Proof.
  assert (∀ v, exec (removeMessageListener (Some listener)) v
               = with_connections (filter (λ s, s ≠ listener))
                   (with_messageListeners (Qt.removeOne listener) v)) as Hremove
    by reflexivity.
  assert (∀ v, exec (addMessageListener (Some listener)) v
               = with_connections (λ cs, cs ++ [listener])
                   (with_messageListeners (λ ls, ls ++ [listener]) v)) as Hadd
    by reflexivity.
  intros w'. subst w'. cbn zeta. rewrite !exec_bind, !Hremove, !Hadd.
  unfold connections_of. simpl. split; [|split; [|split; [|split]]].
  - case_decide as Hin; [by apply removeOne_present|by apply removeOne_absent].
  - apply removeOne_sublist.
  - by rewrite filter_eq_of_filter_ne_same.
  - rewrite <- (assoc_L (++)). simpl. apply removeOne_added_twice.
  - by rewrite filter_eq_of_filter_ne_same.
Qed.

(** ** An invariant of the listener bookkeeping *)

Lemma setProperties_registers properties w :
  let ports := Qt.toStringList (Qt.value properties MESSAGE_FEED_UDP_PORTS_PROPERTYNAME) in
  let w' := exec (setProperties os_bind properties) w in
  ∃ new, m_messageListeners w' = m_messageListeners w ++ new
         ∧ connections w' = connections w ++ new
         ∧ length new = length ports.
Proof.
  intros ports w'.
  destruct (setProperties_run os_bind properties w) as [Hexec _]. cbn zeta in Hexec.
  fold ports in Hexec.
  set (w0 := exec (setResourcePath _) w) in *.
  set (w1 := exec (for_each ports (setProperties_udpPort os_bind)) w0) in *.
  set (entries := Qt.toStringList (Qt.value properties MESSAGE_FEEDS_PROPERTYNAME)) in *.
  set (w2 := exec (for_each entries setProperties_messageFeed) w1) in *.
  destruct (setResourcePath_frame
              (Qt.toString (Qt.value properties RESOURCE_DIRECTORY_PROPERTYNAME)) w)
    as (_ & Hls0 & Hcs0 & _).
  cbn zeta in Hls0, Hcs0. fold w0 in Hls0, Hcs0.
  destruct (for_each_messageFeed_frame entries w1) as (Hls2 & Hcs2 & _).
  fold w2 in Hls2, Hcs2.
  exists (imap (λ i _, S (next_addr w0 + 2 * i))%nat ports).
  assert (m_messageListeners w2 = m_messageListeners w ++ imap (λ i _, S (next_addr w0 + 2 * i))%nat ports
          ∧ connections w2 = connections w ++ imap (λ i _, S (next_addr w0 + 2 * i))%nat ports)
    as [Hls Hcs].
  { rewrite Hls2, Hcs2. subst w1. unfold exec at 1 2.
    rewrite for_each_udpPort_run. simpl. by rewrite Hls0, Hcs0. }
  subst w'. rewrite Hexec.
  destruct (Qt.toStringList (Qt.value properties LOCATION_BROADCAST_CONFIG_PROPERTYNAME))
    as [|ty [|port [|extra rest]]]; simpl; rewrite Hls, Hcs, length_imap; done.
Qed.

Lemma filter_eq_absent (x : addr) (l : list addr) : x ∉ l → filter (λ s, s = x) l = [].
Proof.
  induction l as [|y l IH]; [done|].
  rewrite not_elem_of_cons. intros [Hxy Hx].
  rewrite filter_cons_False by (by intros ->). by apply IH.
Qed.

Lemma connected_listed_call c w :
  connected_listed w → connected_listed (exec (call create os_bind c) w).
Proof.
  unfold connected_listed. intros Hinv.
  destruct c as [gv|l|l|properties|path|b|f|rendererInfo|sender raw|sent]; simpl.
  - done.
  - destruct l as [l|]; [|done]. unfold exec. rewrite addMessageListener_run. simpl.
    intros x. rewrite !elem_of_app. intros [Hx|Hx]; [left; by apply Hinv|by right].
  - destruct l as [l|]; [|done]. unfold exec. rewrite removeMessageListener_run. simpl.
    intros x. rewrite list_elem_of_filter. intros [Hxl Hx].
    by apply elem_of_removeOne_other, Hinv.
  - destruct (setProperties_registers properties w) as (new & -> & -> & _).
    intros x. rewrite !elem_of_app. intros [Hx|Hx]; [left; by apply Hinv|by right].
  - unfold exec. rewrite setResourcePath_run. by case_decide.
  - unfold exec, setLocationBroadcastEnabled, locationBroadcast_isEnabled,
      mbind, M_bind, perform, get. simpl. by case_decide.
  - unfold exec, setLocationBroadcastFrequency, locationBroadcast_frequency,
      mbind, M_bind, perform, get. simpl. by case_decide.
  - rewrite exec_bind.
    destruct (createRenderer_frame rendererInfo w) as (_ & _ & Hls & _ & _ & Hcs).
    intros x Hx.
    change (x ∈ connections (exec (createRenderer rendererInfo) w)) in Hx.
    change (x ∈ m_messageListeners (exec (createRenderer rendererInfo) w)).
    rewrite Hls. rewrite Hcs in Hx. by apply Hinv.
  - by rewrite exec_emit_messageReceived.
  - done.
Qed.

(** X4: whatever sequence of calls and datagrams reaches the controller,
    every sender that has a connection to the slot stays in the listener
    list; so a sender that [messageListeners] does not show delivers
    nothing. *)
Theorem connected_listed_invariant calls w (Hinv : connected_listed w) :
  let w' := exec (for_each calls (call create os_bind)) w in
  connected_listed w'
  ∧ ∀ sender raw, sender ∉ result messageListeners w' →
      trace (emit_messageReceived create sender raw) w' = [].
Proof.
  assert (connected_listed (exec (for_each calls (call create os_bind)) w)) as Hinv'.
  { revert w Hinv. induction calls as [|c calls IH]; intros w Hinv; [done|].
    rewrite exec_for_each_cons. by apply IH, connected_listed_call. }
  intros w'. split; [done|]. intros sender raw Hsender.
  rewrite trace_emit_messageReceived.
  rewrite filter_eq_absent; [done|].
  intros Hconnected. apply Hsender. by apply Hinv'.
Qed.

(** ** What a datagram can do *)

Lemma emitted_concat_replicate n tr :
  emitted tr = [] → emitted (concat (replicate n tr)) = [].
Proof.
  intros Htr. induction n as [|n IH]; [done|].
  simpl. unfold emitted in *. by rewrite omap_app, Htr, IH.
Qed.

Lemma length_delivered_concat_replicate n tr :
  length (delivered (concat (replicate n tr))) = (n * length (delivered tr))%nat.
Proof.
  induction n as [|n IH]; [done|].
  simpl. by rewrite delivered_app, length_app, IH.
Qed.

Lemma onMessageReceived_routes raw w :
  emitted (trace (onMessageReceived create raw) w) = []
  ∧ (length (delivered (trace (onMessageReceived create raw) w)) ≤ 1)%nat
  ∧ ∀ o m, (o, m) ∈ delivered (trace (onMessageReceived create raw) w) →
      m = create raw
      ∧ is_own_broadcast w m = false
      ∧ ∃ feed, feed ∈ m_messageFeeds w
          ∧ MessageFeed.feedMessageType feed = Message.messageType m
          ∧ MessagesOverlay.address (MessageFeed.messagesOverlay feed) = o.
Proof.
  unfold trace. rewrite onMessageReceived_run. simpl.
  destruct (Message.isEmpty (create raw)); simpl.
  { split; [done|]. split; [lia|]. intros o m Hin. by apply elem_of_nil in Hin. }
  unfold delivered, emitted. rewrite !omap_app.
  destruct (is_own_broadcast w (create raw)) eqn:Hown.
  { destruct (LocationBroadcast.enabled _); simpl;
      (split; [done|]); (split; [lia|]); intros o m Hin; by apply elem_of_nil in Hin. }
  destruct (MessageFeedListModel.messageFeedByType _ _) as [feed|] eqn:Hfeed.
  - apply messageFeedByType_Some in Hfeed as [Hin Hty].
    destruct (LocationBroadcast.enabled _); simpl;
      (split; [done|]); (split; [lia|]); intros o m Hom;
      apply list_elem_of_singleton in Hom; simplify_eq;
      (split; [done|]); (split; [done|]); by exists feed.
  - destruct (LocationBroadcast.enabled _); simpl;
      (split; [done|]); (split; [lia|]); intros o m Hin; by apply elem_of_nil in Hin.
Qed.

(** X5: a datagram never changes the controller and never emits a signal.
    Each connection of its sender forwards at most one message; a forwarded
    message is the decoded datagram, is not the controller's own broadcast,
    and goes to the overlay of a registered feed of the message's type. *)
Theorem datagram_only_routes sender raw w :
  let tr := trace (emit_messageReceived create sender raw) w in
  exec (emit_messageReceived create sender raw) w = w
  ∧ emitted tr = []
  ∧ (length (delivered tr) ≤ connections_of sender w)%nat
  ∧ ∀ o m, (o, m) ∈ delivered tr →
      m = create raw
      ∧ is_own_broadcast w m = false
      ∧ ∃ feed, feed ∈ m_messageFeeds w
          ∧ MessageFeed.feedMessageType feed = Message.messageType m
          ∧ MessagesOverlay.address (MessageFeed.messagesOverlay feed) = o.
Proof.
  intros tr. subst tr. rewrite trace_emit_messageReceived.
  destruct (onMessageReceived_routes raw w) as (Hemit & Hlen & Hroute).
  split; [apply exec_emit_messageReceived|].
  split; [by apply emitted_concat_replicate|]. split.
  - rewrite length_delivered_concat_replicate. unfold connections_of. nia.
  - intros o m. unfold delivered at 1. rewrite list_elem_of_omap.
    intros (e & He & Hom). apply elem_of_concat_replicate in He.
    apply Hroute. unfold delivered. rewrite list_elem_of_omap. eauto.
Qed.

(** ** Setters and getters *)

(** X6: [setResourcePath] always leaves the given path in place and nothing
    else changed; it emits [propertyChanged] for the resource directory
    exactly when the path differs from the current one, so a second call
    with the same path does nothing. *)
Theorem setResourcePath_sets path w :
  let w' := exec (setResourcePath path) w in
  w' = with_resourcePath path w
  ∧ m_resourcePath w' = path
  ∧ emitted (trace (setResourcePath path) w)
    = (if decide (path = m_resourcePath w) then []
       else [propertyChanged RESOURCE_DIRECTORY_PROPERTYNAME path])
  ∧ setResourcePath path w' = ((), w', []).
Proof.
  intros w'. subst w'. unfold exec, trace.
  destruct w as [gv feeds ls lb p cs c d n].
  destruct (decide (path = p)) as [->|Hp].
  - rewrite !setResourcePath_run. simpl. rewrite !decide_True by done. done.
  - rewrite (setResourcePath_run path (Build_World gv feeds ls lb p cs c d n)).
    simpl. rewrite !decide_False by done. simpl.
    rewrite setResourcePath_run. simpl. rewrite decide_True by done. done.
Qed.

(** X7: [setLocationBroadcastFrequency] with the frequency the broadcast
    already has only reads it; with another frequency it changes the
    frequency, and only it, and emits [locationBroadcastFrequencyChanged]
    once.  Either way [locationBroadcastFrequency] then returns the given
    value. *)
Theorem setLocationBroadcastFrequency_sets frequency w :
  let current := LocationBroadcast.frequency (m_locationBroadcast w) in
  let w' := exec (setLocationBroadcastFrequency frequency) w in
  setLocationBroadcastFrequency frequency w
  = (if decide (current = frequency) then ((), w, [LocationBroadcast_frequency])
     else ((), with_locationBroadcast (LocationBroadcast.setFrequency frequency) w,
           [LocationBroadcast_frequency; Emit locationBroadcastFrequencyChanged]))
  ∧ result locationBroadcastFrequency w' = frequency
  ∧ emitted (trace (setLocationBroadcastFrequency frequency) w') = [].
Proof.
  intros current w'. subst current w'.
  unfold exec, result, trace, locationBroadcastFrequency, setLocationBroadcastFrequency,
    locationBroadcast_frequency, mbind, M_bind, mret, M_ret, perform, get, modify.
  simpl. case_decide as Hf; simpl.
  - rewrite Hf. rewrite decide_True by done. done.
  - rewrite decide_True by done. done.
Qed.

(** X8: after [setLocationBroadcastEnabled], [isLocationBroadcastEnabled]
    returns the state that was asked for, whatever the state before, and a
    repeated call emits nothing. *)
Theorem isLocationBroadcastEnabled_after_set enabled w :
  let w' := exec (setLocationBroadcastEnabled enabled) w in
  result isLocationBroadcastEnabled w' = enabled
  ∧ emitted (trace (setLocationBroadcastEnabled enabled) w') = []
  ∧ (length (emitted (trace (setLocationBroadcastEnabled enabled) w)) ≤ 1)%nat.
Proof.
  intros w'. subst w'.
  unfold exec, result, trace, isLocationBroadcastEnabled, setLocationBroadcastEnabled,
    locationBroadcast_isEnabled, mbind, M_bind, mret, M_ret, perform, get, modify.
  simpl. case_decide as Hb; simpl.
  - rewrite Hb. rewrite decide_True by done. simpl. split; [done|]. split; [done|lia].
  - rewrite decide_True by done. simpl. split; [done|]. split; [done|lia].
Qed.

(** ** More on applying a configuration *)

(** X9: a configuration without the port list, the feed list and the
    broadcast entry only sets the resource path; when the resource
    directory is missing too, the path is reset to the empty string. *)
Theorem setProperties_without_lists properties w
  (Hports : properties !! MESSAGE_FEED_UDP_PORTS_PROPERTYNAME = None)
  (Hfeeds : properties !! MESSAGE_FEEDS_PROPERTYNAME = None)
  (Hconfig : properties !! LOCATION_BROADCAST_CONFIG_PROPERTYNAME = None) :
  setProperties os_bind properties w
  = setResourcePath (Qt.toString (Qt.value properties RESOURCE_DIRECTORY_PROPERTYNAME)) w
  ∧ (properties !! RESOURCE_DIRECTORY_PROPERTYNAME = None →
     setProperties os_bind properties w = setResourcePath "" w).
Proof.
  assert (setProperties os_bind properties w
          = setResourcePath
              (Qt.toString (Qt.value properties RESOURCE_DIRECTORY_PROPERTYNAME)) w) as Hrun.
  { unfold setProperties, Qt.value. rewrite Hports, Hfeeds, Hconfig. simpl.
    rewrite run_bind. unfold result, exec, trace.
    destruct (setResourcePath _ w) as [[[] w1] t]. simpl. by rewrite app_nil_r. }
  split; [done|]. intros Hdir. rewrite Hrun. unfold Qt.value. by rewrite Hdir.
Qed.

Lemma loaded_app t1 t2 : loaded (t1 ++ t2) = loaded t1 ++ loaded t2.
Proof. apply omap_app. Qed.

Lemma loaded_for_app std t1 t2 :
  loaded_for std (t1 ++ t2) = loaded_for std t1 ++ loaded_for std t2.
Proof. unfold loaded_for. by rewrite loaded_app, filter_app. Qed.

Lemma style_for_location std w :
  styleLocation (style_for std w) = style_file (m_resourcePath w) std.
Proof. by destruct std. Qed.

(** What one resolution loads. *)
Lemma loaded_createRenderer rendererInfo w :
  loaded (trace (createRenderer rendererInfo) w)
  = match standard_of rendererInfo with
    | Some std =>
        match cached std w with Some _ => [] | None => [style_for std w] end
    | None => []
    end.
Proof.
  unfold trace. destruct (standard_of rendererInfo) as [std|] eqn:Hstd.
  - rewrite (createRenderer_standard _ _ _ Hstd). by destruct (cached std w).
  - by rewrite (createRenderer_picture _ _ Hstd).
Qed.

Lemma cached_after_createRenderer rendererInfo std w :
  standard_of rendererInfo = Some std → cached std w = None →
  cached std (exec (createRenderer rendererInfo) w) = Some (style_for std w).
Proof.
  intros Hstd Hc. unfold exec. rewrite (createRenderer_standard _ _ _ Hstd), Hc.
  by destruct std.
Qed.

Lemma cached_other_createRenderer rendererInfo std w :
  standard_of rendererInfo ≠ Some std →
  cached std (exec (createRenderer rendererInfo) w) = cached std w.
Proof.
  intros Hstd. unfold exec.
  destruct (standard_of rendererInfo) as [std'|] eqn:Hstd'.
  - rewrite (createRenderer_standard _ _ _ Hstd').
    destruct (cached std' w); [by destruct std|].
    destruct std, std'; simpl; congruence.
  - rewrite (createRenderer_picture _ _ Hstd'). by destruct std.
Qed.

Lemma setProperties_messageFeed_members entry w :
  let w' := exec (setProperties_messageFeed entry) w in
  m_resourcePath w' = m_resourcePath w
  ∧ m_geoView w' = m_geoView w
  ∧ (∀ std, cached std w' =
       match feed_entry entry with
       | Some (_, _, rendererInfo) => cached std (exec (createRenderer rendererInfo) w)
       | None => cached std w
       end)
  ∧ trace (setProperties_messageFeed entry) w =
      match feed_entry entry with
      | Some (_, _, rendererInfo) => trace (createRenderer rendererInfo) w
      | None => []
      end.
Proof.
  unfold exec, trace. rewrite setProperties_messageFeed_run.
  destruct (feed_entry entry) as [[[name ty] rendererInfo]|]; [|done].
  simpl. destruct (createRenderer_frame rendererInfo w) as (-> & _ & _ & _ & -> & _).
  do 2 (split; [done|]). split; [|done]. intros std. by destruct std.
Qed.

Lemma for_each_messageFeed_members entries w :
  let w' := exec (for_each entries setProperties_messageFeed) w in
  m_resourcePath w' = m_resourcePath w ∧ m_geoView w' = m_geoView w.
Proof.
  revert w. induction entries as [|entry entries IH]; intros w; [done|].
  cbn zeta. rewrite exec_for_each_cons.
  destruct (IH (exec (setProperties_messageFeed entry) w)) as [-> ->].
  by destruct (setProperties_messageFeed_members entry w) as (-> & -> & _).
Qed.

(** Every style the feed loop loads is the first of its standard, lies
    under the resource path, and stays cached. *)
Lemma for_each_messageFeed_loaded entries w st :
  st ∈ loaded (trace (for_each entries setProperties_messageFeed) w) →
  ∃ std, cached std w = None
         ∧ cached std (exec (for_each entries setProperties_messageFeed) w) = Some st
         ∧ specificationType st = style_name std
         ∧ styleLocation st = style_file (m_resourcePath w) std.
Proof.
  revert w. induction entries as [|entry entries IH]; intros w.
  { intros Hin. by apply elem_of_nil in Hin. }
  rewrite trace_for_each_cons, exec_for_each_cons, loaded_app, elem_of_app.
  destruct (setProperties_messageFeed_members entry w) as (Hpath & _ & Hcached & Htrace).
  intros [Hin|Hin].
  - rewrite Htrace in Hin.
    destruct (feed_entry entry) as [[[name ty] rendererInfo]|];
      [|by apply elem_of_nil in Hin].
    rewrite loaded_createRenderer in Hin.
    destruct (standard_of rendererInfo) as [std|] eqn:Hstd;
      [|by apply elem_of_nil in Hin].
    destruct (cached std w) eqn:Hc; [by apply elem_of_nil in Hin|].
    apply list_elem_of_singleton in Hin as ->.
    exists std. split; [done|]. split.
    + apply cached_for_each_messageFeed_stable. rewrite Hcached.
      by apply cached_after_createRenderer.
    + split; [done|apply style_for_location].
  - destruct (IH _ Hin) as (std & Hnone & Hsome & Hname & Hloc).
    exists std. rewrite Hpath in Hloc. split; [|done].
    destruct (cached std w) as [old|] eqn:Hc; [|done].
    by rewrite (cached_messageFeed_stable entry std old w Hc) in Hnone.
Qed.

Lemma loaded_for_each_udpPort ports w :
  loaded (trace (for_each ports (setProperties_udpPort os_bind)) w) = [].
Proof.
  revert w. induction ports as [|udpPort ports IH]; intros w; [done|].
  by rewrite trace_for_each_cons, loaded_app, IH.
Qed.

(** X10: [setProperties] always overwrites the resource path with the
    configured resource directory, and every style file it loads is the
    first load of its standard, is read from that directory, and is the
    style cached for the standard afterwards. *)
Theorem setProperties_resource_directory properties w :
  let dir := Qt.toString (Qt.value properties RESOURCE_DIRECTORY_PROPERTYNAME) in
  let w' := exec (setProperties os_bind properties) w in
  m_resourcePath w' = dir
  ∧ ∀ st, st ∈ loaded (trace (setProperties os_bind properties) w) →
      ∃ std, cached std w = None
             ∧ cached std w' = Some st
             ∧ specificationType st = style_name std
             ∧ styleLocation st = style_file dir std.
Proof.
  intros dir w'.
  destruct (setProperties_run os_bind properties w) as [Hexec Htrace].
  cbn zeta in Hexec, Htrace. fold dir in Hexec, Htrace.
  set (ports := Qt.toStringList (Qt.value properties MESSAGE_FEED_UDP_PORTS_PROPERTYNAME)) in *.
  set (entries := Qt.toStringList (Qt.value properties MESSAGE_FEEDS_PROPERTYNAME)) in *.
  set (w0 := exec (setResourcePath dir) w) in *.
  set (w1 := exec (for_each ports (setProperties_udpPort os_bind)) w0) in *.
  set (w2 := exec (for_each entries setProperties_messageFeed) w1) in *.
  assert (m_resourcePath w0 = dir ∧ ∀ std, cached std w0 = cached std w) as [Hp0 Hc0].
  { subst w0. unfold exec. rewrite setResourcePath_run.
    case_decide; simpl; (split; [done|]); intros std; by destruct std. }
  assert (m_resourcePath w1 = dir ∧ ∀ std, cached std w1 = cached std w) as [Hp1 Hc1].
  { subst w1. unfold exec at 1 2. rewrite for_each_udpPort_run. simpl.
    split; [done|]. intros std. rewrite <- Hc0. by destruct std. }
  assert (m_resourcePath w' = m_resourcePath w2 ∧ ∀ std, cached std w' = cached std w2)
    as [Hp Hc].
  { subst w'. rewrite Hexec.
    destruct (Qt.toStringList (Qt.value properties LOCATION_BROADCAST_CONFIG_PROPERTYNAME))
      as [|ty [|port [|extra rest]]]; simpl; (split; [done|]); intros std; by destruct std. }
  split.
  - rewrite Hp. subst w2. by destruct (for_each_messageFeed_members entries w1) as [-> _].
  - intros st. rewrite Htrace, !loaded_app, loaded_for_each_udpPort.
    assert (loaded (trace (setResourcePath dir) w) = []) as ->.
    { unfold trace. rewrite setResourcePath_run. by case_decide. }
    simpl. intros Hin.
    destruct (for_each_messageFeed_loaded entries w1 st Hin)
      as (std & Hnone & Hsome & Hname & Hloc).
    exists std. rewrite Hc, <- Hc1, <- Hp1. done.
Qed.

(** ** The shape of a feed entry *)

Lemma split_whole sep s : Qt.occurrences sep s = 0%nat → Qt.split sep s = [s].
Proof.
  induction s as [|c rest IH]; simpl; [done|].
  destruct (Ascii.eqb c sep); [done|]. intros Hocc. by rewrite IH.
Qed.

Lemma split_app sep part rest :
  Qt.occurrences sep part = 0%nat →
  Qt.split sep (part +:+ String sep rest) = part :: Qt.split sep rest.
Proof.
  induction part as [|c part IH]; simpl.
  - intros _. by rewrite Ascii.eqb_refl.
  - destruct (Ascii.eqb c sep); [done|]. intros Hocc. by rewrite IH.
Qed.

Lemma split_cons_inv sep s part parts :
  Qt.split sep s = part :: parts →
  Qt.occurrences sep part = 0%nat
  ∧ match parts with
    | [] => s = part
    | _ :: _ => ∃ rest, s = part +:+ String sep rest ∧ Qt.split sep rest = parts
    end.
Proof.
  revert part parts. induction s as [|c s IH]; intros part parts; simpl.
  - by intros [= <- <-].
  - destruct (Ascii.eqb c sep) eqn:Hc.
    + intros [= <- <-]. apply Ascii.eqb_eq in Hc as ->. split; [done|].
      pose proof (split_nonempty sep s).
      destruct (Qt.split sep s) eqn:Hs; [done|]. by exists s.
    + destruct (Qt.split sep s) as [|p ps] eqn:Hs; [by destruct (split_nonempty sep s)|].
      intros [= <- <-]. destruct (IH p ps eq_refl) as [Hocc Hrest].
      split; [simpl; by rewrite Hc|].
      destruct ps as [|q ps]; [by rewrite Hrest|].
      destruct Hrest as (rest & -> & Hsplit). by exists rest.
Qed.

Lemma occurrences_app sep s t :
  Qt.occurrences sep (s +:+ t) = (Qt.occurrences sep s + Qt.occurrences sep t)%nat.
Proof.
  induction s as [|c s IH]; simpl; [done|].
  destruct (Ascii.eqb c sep); simpl; by rewrite IH.
Qed.

Lemma feed_entry_shape entry name ty rendererInfo :
  feed_entry entry = Some (name, ty, rendererInfo)
  ↔ entry = name +:+ ":" +:+ ty +:+ ":" +:+ rendererInfo
    ∧ Qt.occurrences ":" name = 0%nat
    ∧ Qt.occurrences ":" ty = 0%nat
    ∧ Qt.occurrences ":" rendererInfo = 0%nat.
Proof.
  rewrite (feed_entry_Some create). split.
  - intros Hsplit.
    apply split_cons_inv in Hsplit as (Hname & rest1 & -> & Hsplit).
    apply split_cons_inv in Hsplit as (Hty & rest2 & -> & Hsplit).
    apply split_cons_inv in Hsplit as (Hrenderer & ->).
    done.
  - intros (-> & Hname & Hty & Hrenderer).
    change (name +:+ ":" +:+ ty +:+ ":" +:+ rendererInfo)
      with (name +:+ String ":" (ty +:+ String ":" rendererInfo)).
    by rewrite !split_app, split_whole.
Qed.

Lemma feed_entry_is_Some entry :
  is_Some (feed_entry entry) ↔ Qt.occurrences ":" entry = 2%nat.
Proof.
  split.
  - intros [[[name ty] rendererInfo] Hentry].
    apply (feed_entry_Some create) in Hentry.
    pose proof (length_split ":" entry) as Hlen. rewrite Hentry in Hlen.
    simpl in Hlen. lia.
  - intros Hocc. destruct (feed_entry entry) eqn:Hentry; [done|].
    apply (feed_entry_None create) in Hentry. rewrite length_split in Hentry. lia.
Qed.

Lemma length_omap_feed_entry entries :
  length (omap feed_entry entries)
  = length (filter (λ entry, Qt.occurrences ":" entry = 2%nat) entries).
Proof.
  induction entries as [|entry entries IH]; [done|].
  destruct (feed_entry entry) as [parts|] eqn:Hentry.
  - rewrite filter_cons_True by (apply feed_entry_is_Some; by rewrite Hentry).
    change (omap feed_entry (entry :: entries))
      with (match feed_entry entry with
            | Some parts => parts :: omap feed_entry entries
            | None => omap feed_entry entries
            end).
    rewrite Hentry. simpl. by rewrite IH.
  - rewrite filter_cons_False
      by (rewrite <- feed_entry_is_Some, Hentry; by intros [? ?]).
    change (omap feed_entry (entry :: entries))
      with (match feed_entry entry with
            | Some parts => parts :: omap feed_entry entries
            | None => omap feed_entry entries
            end).
    by rewrite Hentry.
Qed.

Lemma for_each_messageFeed_appends entries w :
  ∃ new,
    m_messageFeeds (exec (for_each entries setProperties_messageFeed) w)
    = m_messageFeeds w ++ new
    ∧ length new = length (omap feed_entry entries)
    ∧ Forall (λ feed, MessagesOverlay.geoView (MessageFeed.messagesOverlay feed)
                      = m_geoView w) new.
Proof.
  revert w. induction entries as [|entry entries IH]; intros w.
  { exists []. by rewrite app_nil_r. }
  rewrite exec_for_each_cons.
  destruct (IH (exec (setProperties_messageFeed entry) w)) as (new & -> & Hlen & Hgv).
  destruct (setProperties_messageFeed_members entry w) as (_ & Hg & _).
  cbn zeta in Hg. rewrite Hg in Hgv. clear Hg. revert Hgv.
  change (omap feed_entry (entry :: entries))
    with (match feed_entry entry with
          | Some parts => parts :: omap feed_entry entries
          | None => omap feed_entry entries
          end).
  unfold exec at 1. rewrite setProperties_messageFeed_run.
  destruct (feed_entry entry) as [[[name ty] rendererInfo]|]; simpl.
  - destruct (createRenderer_frame rendererInfo w) as (Hg & Hf & _).
    cbn zeta in Hg, Hf. intros Hgv. eexists (_ :: new).
    unfold MessageFeedListModel.append. rewrite Hf, <- (assoc_L (++)). simpl.
    split; [done|]. split; [by rewrite Hlen|]. by constructor.
  - intros Hgv. by exists new.
Qed.

Lemma setProperties_appends properties w :
  let entries := Qt.toStringList (Qt.value properties MESSAGE_FEEDS_PROPERTYNAME) in
  let w' := exec (setProperties os_bind properties) w in
  ∃ new, m_messageFeeds w' = m_messageFeeds w ++ new
         ∧ length new = length (omap feed_entry entries)
         ∧ Forall (λ feed, MessagesOverlay.geoView (MessageFeed.messagesOverlay feed)
                           = m_geoView w) new.
Proof.
  intros entries w'.
  destruct (setProperties_run os_bind properties w) as [Hexec _]. cbn zeta in Hexec.
  fold entries in Hexec.
  set (w0 := exec (setResourcePath _) w) in *.
  set (w1 := exec (for_each _ (setProperties_udpPort os_bind)) w0) in *.
  assert (m_messageFeeds w1 = m_messageFeeds w ∧ m_geoView w1 = m_geoView w) as [Hf1 Hg1].
  { subst w1. unfold exec at 1 2. rewrite for_each_udpPort_run. simpl.
    subst w0. unfold exec. rewrite setResourcePath_run. by case_decide. }
  destruct (for_each_messageFeed_appends entries w1) as (new & Hfeeds & Hlen & Hgv).
  exists new. rewrite Hf1 in Hfeeds. rewrite Hg1 in Hgv.
  split; [|done]. subst w'. rewrite Hexec.
  destruct (Qt.toStringList (Qt.value properties LOCATION_BROADCAST_CONFIG_PROPERTYNAME))
    as [|ty [|port [|extra rest]]]; simpl; by rewrite Hfeeds.
Qed.

(** X11: a feed entry gives a feed exactly when it contains two colons:
    the name, the type and the renderer specification are then the three
    colon-free pieces around them, so a renderer specification that itself
    contains a colon cannot be configured.  The registry grows by the number
    of such entries. *)
Theorem feed_entry_two_colons properties w :
  let entries := Qt.toStringList (Qt.value properties MESSAGE_FEEDS_PROPERTYNAME) in
  (∀ entry, is_Some (feed_entry entry) ↔ Qt.occurrences ":" entry = 2%nat)
  ∧ (∀ entry name ty rendererInfo,
       feed_entry entry = Some (name, ty, rendererInfo)
       ↔ entry = name +:+ ":" +:+ ty +:+ ":" +:+ rendererInfo
         ∧ Qt.occurrences ":" name = 0%nat
         ∧ Qt.occurrences ":" ty = 0%nat
         ∧ Qt.occurrences ":" rendererInfo = 0%nat)
  ∧ length (m_messageFeeds (exec (setProperties os_bind properties) w))
    = (length (m_messageFeeds w)
       + length (filter (λ entry, Qt.occurrences ":" entry = 2%nat) entries))%nat.
Proof.
  intros entries. split; [apply feed_entry_is_Some|]. split; [apply feed_entry_shape|].
  destruct (setProperties_appends properties w) as (new & -> & Hlen & _).
  by rewrite length_app, Hlen, length_omap_feed_entry.
Qed.

(** X12: applying a configuration only ever appends: the feeds, the
    listeners and the connections from before stay, in order, at the front.
    Applying the same configuration a second time therefore registers every
    port and every feed again. *)
Theorem setProperties_only_appends properties w :
  let ports := Qt.toStringList (Qt.value properties MESSAGE_FEED_UDP_PORTS_PROPERTYNAME) in
  let entries := Qt.toStringList (Qt.value properties MESSAGE_FEEDS_PROPERTYNAME) in
  let w1 := exec (setProperties os_bind properties) w in
  let w2 := exec (setProperties os_bind properties) w1 in
  m_messageFeeds w `prefix_of` m_messageFeeds w1
  ∧ m_messageListeners w `prefix_of` m_messageListeners w1
  ∧ connections w `prefix_of` connections w1
  ∧ length (m_messageFeeds w2)
    = (length (m_messageFeeds w) + 2 * length (omap feed_entry entries))%nat
  ∧ length (m_messageListeners w2)
    = (length (m_messageListeners w) + 2 * length ports)%nat
  ∧ length (connections w2) = (length (connections w) + 2 * length ports)%nat.
Proof.
  intros ports entries w1 w2.
  destruct (setProperties_appends properties w) as (feeds1 & Hf1 & Hlen1 & _).
  destruct (setProperties_appends properties w1) as (feeds2 & Hf2 & Hlen2 & _).
  destruct (setProperties_registers properties w) as (ls1 & Hl1 & Hc1 & Hn1).
  destruct (setProperties_registers properties w1) as (ls2 & Hl2 & Hc2 & Hn2).
  fold w1 in Hf1, Hl1, Hc1. fold w2 in Hf2, Hl2, Hc2.
  fold entries in Hlen1, Hlen2. fold ports in Hn1, Hn2.
  split; [rewrite Hf1; by apply prefix_app_r|].
  split; [rewrite Hl1; by apply prefix_app_r|].
  split; [rewrite Hc1; by apply prefix_app_r|].
  rewrite Hf2, Hl2, Hc2, Hf1, Hl1, Hc1, !length_app. lia.
Qed.

(** X13: the overlay of every feed that [setProperties] creates is built
    for the view the controller holds at that moment, and [setGeoView]
    afterwards changes the controller's view only: the feeds, and with them
    the view of their overlays, stay as they are. *)
Theorem overlays_keep_their_geoView properties geoView w :
  let w1 := exec (setProperties os_bind properties) w in
  let w2 := exec (setGeoView geoView) w1 in
  (∃ new, m_messageFeeds w1 = m_messageFeeds w ++ new
          ∧ Forall (λ feed, MessagesOverlay.geoView (MessageFeed.messagesOverlay feed)
                            = m_geoView w) new)
  ∧ m_geoView w1 = m_geoView w
  ∧ m_geoView w2 = geoView
  ∧ m_messageFeeds w2 = m_messageFeeds w1.
Proof.
  intros w1 w2.
  destruct (setProperties_appends properties w) as (new & Hfeeds & _ & Hgv).
  split; [by exists new|]. split; [|done].
  destruct (setProperties_run os_bind properties w) as [Hexec _]. cbn zeta in Hexec.
  subst w1. rewrite Hexec.
  set (w0 := exec (setResourcePath _) w).
  set (w1 := exec (for_each _ (setProperties_udpPort os_bind)) w0).
  assert (m_geoView w1 = m_geoView w) as Hg1.
  { subst w1. unfold exec at 1. rewrite for_each_udpPort_run. simpl.
    subst w0. unfold exec. rewrite setResourcePath_run. by case_decide. }
  destruct (for_each_messageFeed_members
              (Qt.toStringList (Qt.value properties MESSAGE_FEEDS_PROPERTYNAME)) w1)
    as [_ Hg2]. cbn zeta in Hg2.
  destruct (Qt.toStringList (Qt.value properties LOCATION_BROADCAST_CONFIG_PROPERTYNAME))
    as [|ty [|port [|extra rest]]]; simpl; by rewrite Hg2.
Qed.

(** ** Loading styles at most once *)

Lemma loaded_for_style_for std std' w :
  loaded_for std [New_DictionarySymbolStyle (style_for std' w)]
  = if decide (std' = std) then [style_for std' w] else [].
Proof. by destruct std, std'. Qed.

Lemma loads_once_ret std : loads_once std (mret ()).
Proof. intros w. split; [done|]. intros Hc. by left. Qed.

Lemma loads_once_unloaded std (c : M unit) :
  (∀ w, loaded (trace c w) = [] ∧ cached std (exec c w) = cached std w) →
  loads_once std c.
Proof.
  intros Hc w. destruct (Hc w) as [Hl Hcached].
  unfold loaded_for. rewrite Hl, Hcached. split; [done|]. intros Hnone. by left.
Qed.

Lemma loads_once_seq std (c1 c2 : M unit) :
  loads_once std c1 → loads_once std c2 → loads_once std (c1 ;; c2).
Proof.
  intros H1 H2 w. rewrite exec_bind, trace_bind, loaded_for_app.
  destruct (H1 w) as [Hs1 Hn1].
  destruct (H2 (exec c1 w)) as [Hs2 Hn2].
  split.
  - intros st Hc. destruct (Hs1 st Hc) as [Hc1 ->].
    destruct (Hs2 st Hc1) as [Hc2 ->]. done.
  - intros Hc. destruct (Hn1 Hc) as [[-> Hc1]|(st & -> & Hc1)].
    + destruct (Hn2 Hc1) as [[-> Hc2]|(st & -> & Hc2)]; [by left|right; by exists st].
    + destruct (Hs2 st Hc1) as [Hc2 ->]. right. by exists st.
Qed.

Lemma loads_once_for_each {A} std (l : list A) (body : A → M unit) :
  (∀ x, loads_once std (body x)) → loads_once std (for_each l body).
Proof.
  intros Hbody. induction l as [|x l IH]; [apply loads_once_ret|].
  by apply loads_once_seq.
Qed.

Lemma loads_once_createRenderer std rendererInfo :
  loads_once std (createRenderer rendererInfo ;; mret ()).
Proof.
  intros w. rewrite exec_bind, trace_bind.
  change (exec (mret ()) (exec (createRenderer rendererInfo) w))
    with (exec (createRenderer rendererInfo) w).
  change (trace (mret ()) (exec (createRenderer rendererInfo) w)) with (@nil Event).
  rewrite app_nil_r. unfold exec, trace.
  destruct (standard_of rendererInfo) as [std'|] eqn:Hstd.
  - rewrite (createRenderer_standard _ _ _ Hstd).
    destruct (cached std' w) as [old|] eqn:Hold; simpl.
    + split.
      * intros st Hc. split; [by destruct std|done].
      * intros Hc. left. split; [done|by destruct std].
    + rewrite loaded_for_style_for. split.
      * intros st Hc. rewrite decide_False by (intros ->; congruence).
        split; [|done]. destruct std, std'; simpl in *; congruence.
      * intros Hc. case_decide as Heq.
        -- subst std'. right. exists (style_for std w). split; [done|by destruct std].
        -- left. split; [done|]. destruct std, std'; simpl in *; congruence.
  - rewrite (createRenderer_picture _ _ Hstd). simpl. split.
    + intros st Hc. split; [by destruct std|done].
    + intros Hc. left. split; [done|by destruct std].
Qed.

Lemma loads_once_messageFeed std entry : loads_once std (setProperties_messageFeed entry).
Proof.
  intros w.
  destruct (setProperties_messageFeed_members entry w) as (_ & _ & Hcached & Htrace).
  cbn zeta in Hcached. rewrite Hcached, Htrace.
  destruct (feed_entry entry) as [[[name ty] rendererInfo]|].
  - pose proof (loads_once_createRenderer std rendererInfo w) as Hr.
    rewrite exec_bind, trace_bind in Hr.
    change (exec (mret ()) (exec (createRenderer rendererInfo) w))
      with (exec (createRenderer rendererInfo) w) in Hr.
    change (trace (mret ()) (exec (createRenderer rendererInfo) w)) with (@nil Event) in Hr.
    by rewrite app_nil_r in Hr.
  - split; [done|]. intros Hc. by left.
Qed.

Lemma loads_once_setProperties std properties :
  loads_once std (setProperties os_bind properties).
Proof.
  intros w.
  destruct (setProperties_run os_bind properties w) as [Hexec Htrace].
  cbn zeta in Hexec, Htrace.
  set (dir := Qt.toString (Qt.value properties RESOURCE_DIRECTORY_PROPERTYNAME)) in *.
  set (ports := Qt.toStringList (Qt.value properties MESSAGE_FEED_UDP_PORTS_PROPERTYNAME)) in *.
  set (entries := Qt.toStringList (Qt.value properties MESSAGE_FEEDS_PROPERTYNAME)) in *.
  set (w0 := exec (setResourcePath dir) w) in *.
  set (w1 := exec (for_each ports (setProperties_udpPort os_bind)) w0) in *.
  set (w2 := exec (for_each entries setProperties_messageFeed) w1) in *.
  assert (cached std w1 = cached std w) as Hc1.
  { subst w1. unfold exec at 1. rewrite for_each_udpPort_run. simpl.
    subst w0. unfold exec. rewrite setResourcePath_run. case_decide; by destruct std. }
  assert (cached std (exec (setProperties os_bind properties) w) = cached std w2) as Hc.
  { rewrite Hexec.
    destruct (Qt.toStringList (Qt.value properties LOCATION_BROADCAST_CONFIG_PROPERTYNAME))
      as [|ty [|port [|extra rest]]]; by destruct std. }
  assert (loaded_for std (trace (setProperties os_bind properties) w)
          = loaded_for std (trace (for_each entries setProperties_messageFeed) w1)) as Hl.
  { rewrite Htrace, !loaded_for_app. unfold loaded_for at 1 2.
    rewrite loaded_for_each_udpPort.
    assert (loaded (trace (setResourcePath dir) w) = []) as ->; [|done].
    unfold trace. rewrite setResourcePath_run. by case_decide. }
  rewrite Hc, Hl, <- Hc1.
  apply (loads_once_for_each std entries setProperties_messageFeed).
  intros entry. apply loads_once_messageFeed.
Qed.

Lemma loads_once_call std c : loads_once std (call create os_bind c).
Proof.
  destruct c as [gv|l|l|properties|path|b|f|rendererInfo|sender raw|sent]; simpl.
  - apply loads_once_unloaded. intros w. split; [done|by destruct std].
  - destruct l; apply loads_once_unloaded; intros w; (split; [done|by destruct std]).
  - destruct l; apply loads_once_unloaded; intros w; (split; [done|by destruct std]).
  - apply loads_once_setProperties.
  - apply loads_once_unloaded. intros w. unfold exec, trace.
    rewrite setResourcePath_run. case_decide; (split; [done|by destruct std]).
  - apply loads_once_unloaded. intros w.
    unfold exec, trace, setLocationBroadcastEnabled, locationBroadcast_isEnabled,
      mbind, M_bind, perform, get. simpl.
    case_decide; (split; [done|by destruct std]).
  - apply loads_once_unloaded. intros w.
    unfold exec, trace, setLocationBroadcastFrequency, locationBroadcast_frequency,
      mbind, M_bind, perform, get. simpl.
    case_decide; (split; [done|by destruct std]).
  - apply loads_once_createRenderer.
  - apply loads_once_unloaded. intros w.
    rewrite exec_emit_messageReceived, trace_emit_messageReceived. split; [|done].
    induction (length (filter (λ s, s = sender) (connections w))) as [|n IH]; [done|].
    simpl. rewrite loaded_app, IH, app_nil_r.
    unfold trace. rewrite onMessageReceived_run. simpl.
    destruct (Message.isEmpty _); [done|]. simpl.
    unfold loaded. rewrite omap_app.
    destruct (LocationBroadcast.enabled _); simpl;
      destruct (is_own_broadcast _ _); simpl; try done;
      by destruct (MessageFeedListModel.messageFeedByType _ _).
  - apply loads_once_unloaded. intros w. split; [done|by destruct std].
Qed.

(** X14: over any sequence of calls and datagrams the style of a standard
    is loaded at most once, and not at all when the static already holds
    one; a style that is loaded is the one held afterwards. *)
Theorem style_loaded_at_most_once calls std w :
  let tr := trace (for_each calls (call create os_bind)) w in
  let w' := exec (for_each calls (call create os_bind)) w in
  (length (loaded_for std tr) ≤ 1)%nat
  ∧ (is_Some (cached std w) → loaded_for std tr = [] ∧ cached std w' = cached std w)
  ∧ (∀ st, st ∈ loaded_for std tr → cached std w' = Some st).
Proof.
  intros tr w'.
  destruct (loads_once_for_each std calls (call create os_bind)
              (loads_once_call std) w) as [Hsome Hnone].
  fold tr w' in Hsome, Hnone.
  destruct (cached std w) as [old|] eqn:Hc.
  - destruct (Hsome old eq_refl) as [Hc' Hl]. rewrite Hl. simpl.
    split; [lia|]. split; [done|]. intros st Hin. by apply elem_of_nil in Hin.
  - destruct (Hnone eq_refl) as [[Hl Hc']|(st & Hl & Hc')]; rewrite Hl; simpl.
    + split; [lia|]. split; [by intros [? ?]|].
      intros st Hin. by apply elem_of_nil in Hin.
    + split; [lia|]. split; [by intros [? ?]|].
      intros st' Hin. by apply list_elem_of_singleton in Hin as ->.
Qed.

(** ** The ports that are bound *)

Lemma binds_setProperties properties w :
  binds (trace (setProperties os_bind properties) w)
  = imap (λ i udpPort,
            let port := Qt.to_quint16 (Qt.toInt udpPort) in
            ((next_addr w + 2 * i)%nat, port, os_bind (next_addr w + 2 * i)%nat port))
      (Qt.toStringList (Qt.value properties MESSAGE_FEED_UDP_PORTS_PROPERTYNAME)).
Proof.
  destruct (setProperties_run os_bind properties w) as [_ ->].
  destruct (setResourcePath_frame
              (Qt.toString (Qt.value properties RESOURCE_DIRECTORY_PROPERTYNAME)) w)
    as (_ & _ & _ & _ & Hn0 & Hb0).
  destruct (for_each_messageFeed_frame
              (Qt.toStringList (Qt.value properties MESSAGE_FEEDS_PROPERTYNAME))
              (exec (for_each
                       (Qt.toStringList (Qt.value properties MESSAGE_FEED_UDP_PORTS_PROPERTYNAME))
                       (setProperties_udpPort os_bind))
                 (exec (setResourcePath
                          (Qt.toString (Qt.value properties RESOURCE_DIRECTORY_PROPERTYNAME))) w)))
    as (_ & _ & _ & Hb2).
  unfold binds in *. rewrite !omap_app, Hb0, Hb2, app_nil_r. simpl.
  unfold trace. rewrite for_each_udpPort_run. cbn zeta. cbn [snd].
  cbn zeta in Hn0. rewrite Hn0. by apply binds_concat_imap.
Qed.

(** X19: the port handed to [bind] is the configured number reduced to 16
    bits: it always lies between 0 and 65535, and it is the configured
    number itself exactly when that lies in this range; a larger or a
    negative number is bound at another port. *)
Theorem bound_ports_are_16_bit properties w :
  let ports := Qt.toStringList (Qt.value properties MESSAGE_FEED_UDP_PORTS_PROPERTYNAME) in
  ((binds (trace (setProperties os_bind properties) w)).*1).*2
  = (λ udpPort, Qt.to_quint16 (Qt.toInt udpPort)) <$> ports
  ∧ ∀ udpPort,
      0 ≤ Qt.to_quint16 (Qt.toInt udpPort) < 65536
      ∧ (Qt.to_quint16 (Qt.toInt udpPort) = Qt.toInt udpPort
         ↔ 0 ≤ Qt.toInt udpPort < 65536).
Proof.
  intros ports. split.
  - rewrite binds_setProperties. fold ports. rewrite !fmap_imap.
    rewrite <- imap_const. by apply imap_ext.
  - intros udpPort. unfold Qt.to_quint16.
    pose proof (Z.mod_pos_bound (Qt.toInt udpPort) (2 ^ 16)) as Hbound.
    split; [lia|]. split.
    + intros Heq. rewrite <- Heq. lia.
    + intros Hrange. apply Z.mod_small. lia.
Qed.

End Lifecycle.

(** * Properties of the feature overlay manager *)

Module FeatureOverlayManagerFacts.
Import FeatureOverlayManager.

Lemma scan_fields_last fields oidFieldName :
  scan_fields fields oidFieldName
  = default oidFieldName (name <$> last (filter (λ f, fieldType f = OID) fields)).
Proof.
  revert oidFieldName. induction fields as [|f fields IH]; intros oidFieldName; [done|].
  unfold scan_fields in *. simpl. rewrite IH. case_decide as Hoid.
  - rewrite filter_cons_True by done. rewrite last_cons.
    by destruct (last (filter _ fields)).
  - by rewrite filter_cons_False by done.
Qed.

(** X15: the constructor takes as object-id field the last field of type
    OID in the table (a later one overwrites an earlier one); without a
    table, or without such a field, the name stays empty. *)
Theorem construct_oid_field overlay :
  m_oidFieldName (construct overlay)
  = match featureTable overlay with
    | Some tab => default "" (name <$> last (filter (λ f, fieldType f = OID) (fields tab)))
    | None => ""
    end
  ∧ (∀ tab before f after,
       featureTable overlay = Some tab →
       fields tab = before ++ f :: after →
       fieldType f = OID →
       Forall (λ g, fieldType g ≠ OID) after →
       m_oidFieldName (construct overlay) = name f).
Proof.
  unfold construct. simpl. split.
  - destruct (featureTable overlay); [apply scan_fields_last|done].
  - intros tab before f after -> -> Hoid Hafter.
    rewrite scan_fields_last, filter_app, filter_cons_True by done.
    assert (filter (λ g, fieldType g = OID) after = []) as ->.
    { induction Hafter as [|g after Hg _ IH]; [done|].
      by rewrite filter_cons_False by done. }
    by rewrite last_snoc.
Qed.

Lemma elementAt_hit outcome elementId feature s :
  cache_value (m_elementCache s) elementId = Some feature →
  elementAt outcome elementId s = (Returns (Some feature), s, []).
Proof. unfold elementAt. by intros ->. Qed.

Lemma cache_value_insert_other cache elementId other v :
  other ≠ elementId →
  cache_value (<[other := v]> cache) elementId = cache_value cache elementId.
Proof. intros Hne. unfold cache_value. by rewrite lookup_insert_ne. Qed.

Lemma cache_value_insert cache elementId v :
  cache_value (<[elementId := v]> cache) elementId = v.
Proof. unfold cache_value. by rewrite lookup_insert_eq. Qed.

(** A lookup never replaces an element that the cache holds. *)
Lemma elementAt_keeps_cached outcome other elementId feature s :
  cache_value (m_elementCache s) elementId = Some feature →
  cache_value (m_elementCache (elementAt outcome other s).1.2) elementId = Some feature.
Proof.
  intros Hcached. unfold elementAt.
  destruct (cache_value (m_elementCache s) other) as [hit|] eqn:Hother; [done|].
  assert (other ≠ elementId) as Hne by (intros ->; congruence).
  destruct (featureTable (m_overlay s)); [|done].
  destruct outcome as [|result]; simpl.
  - destruct (stale_error_handlers s); simpl; [|done].
    by rewrite cache_value_insert_other.
  - by rewrite cache_value_insert_other.
Qed.



Lemma elementAt_handlers outcome elementId s :
  stale_error_handlers (elementAt outcome elementId s).1.2
  = (stale_error_handlers s + length (elementAt outcome elementId s).2)%nat.
Proof.
  unfold elementAt.
  destruct (cache_value (m_elementCache s) elementId); [simpl; lia|].
  destruct (featureTable (m_overlay s)); [|simpl; lia].
  destruct outcome; simpl; [destruct (stale_error_handlers s)|]; simpl; lia.
Qed.


End FeatureOverlayManagerFacts.

(** * Concrete runs of the further properties *)

Lemma add_then_remove_restores_witness :
  (addMessageListener (Some 50%nat) ;; removeMessageListener (Some 50%nat)) Sample.configured
  = ((), Sample.configured, []).
Proof.
  apply (add_then_remove_restores 50%nat Sample.configured).
  - intros Hin. vm_compute in Hin.
    repeat (apply elem_of_cons in Hin as [Heq|Hin]; [discriminate|]).
    by apply elem_of_nil in Hin.
  - intros Hin. vm_compute in Hin.
    repeat (apply elem_of_cons in Hin as [Heq|Hin]; [discriminate|]).
    by apply elem_of_nil in Hin.
Defined.

Lemma connected_listed_invariant_witness :
  connected_listed
    (exec (for_each [Call_setProperties Sample.config;
                     Call_addMessageListener (Some 50%nat);
                     Call_addMessageListener (Some 50%nat);
                     Call_removeMessageListener (Some 50%nat);
                     Call_messageReceived 2%nat "friendly:1"]
             (call Sample.decode Sample.bind_ok)) Sample.fresh).
Proof.
  apply (connected_listed_invariant Sample.decode Sample.bind_ok _ Sample.fresh).
  intros listener Hin. vm_compute in Hin. by apply elem_of_nil in Hin.
Defined.

Lemma setProperties_without_lists_witness :
  setProperties Sample.bind_ok {[ RESOURCE_DIRECTORY_PROPERTYNAME := Qt.VString "/data" ]}
    Sample.fresh
  = setResourcePath "/data" Sample.fresh.
Proof.
  destruct (setProperties_without_lists Sample.bind_ok
              {[ RESOURCE_DIRECTORY_PROPERTYNAME := Qt.VString "/data" ]} Sample.fresh)
    as [Hrun _]; [reflexivity..|].
  exact Hrun.
Defined.

